(** * boardlyX real-time chat: a shallow embedding of the client code

    The development follows the TypeScript sources:
    - [JS]        the JavaScript values and string primitives the code uses;
    - [ChatApi]   the record types of [services/chatApi.ts];
    - [UseSocket] the module-level socket singleton of [hooks/useSocket.ts];
    - [ChatPage]  the state and the handlers of [components/dashboard/ChatPage.tsx].

    React state is a record, a handler is a function from state to state
    (together with the requests and socket emissions it issues), and an
    [async] handler is cut at its [await]: one function up to the request,
    one function from the settled promise on. *)

From Stdlib Require Import ZArith NArith Ascii String List DecimalString Sorted.
From stdpp Require Import base decidable option list gmap sets.
Import ListNotations.
Local Open Scope Z_scope.

(** ** JavaScript values *)

Module JS.

(** A JavaScript string is a sequence of UTF-16 code units. *)
Abbreviation jsstring := (list N).

(** String literals of the source that are plain ASCII. *)
Definition js (s : string) : jsstring :=
  List.map N_of_ascii (list_ascii_of_string s).

(** Truthiness of a string: only the empty string is falsy. *)
Definition truthy (s : jsstring) : bool :=
  match s with [] => false | _ :: _ => true end.

(** Truthiness of [string | null]. *)
Definition truthy_opt (s : option jsstring) : bool :=
  match s with None => false | Some s => truthy s end.

(** [===] on strings. *)
Definition str_eqb (a b : jsstring) : bool := bool_decide (a = b).

(** [x === y] where [y : string | null]. *)
Definition opt_str_eqb (a : jsstring) (b : option jsstring) : bool :=
  bool_decide (Some a = b).

(** The code units matched by the regular expression class [\s], which are
    also the ones [String.prototype.trim] strips (WhiteSpace and
    LineTerminator of ECMAScript). *)
Definition is_space (c : N) : bool :=
  ((9 <=? c) && (c <=? 13) || (c =? 32) || (c =? 160) || (c =? 5760)
   || (8192 <=? c) && (c <=? 8202) || (c =? 8232) || (c =? 8233)
   || (c =? 8239) || (c =? 8287) || (c =? 12288) || (c =? 65279))%N.

Fixpoint drop_spaces (s : jsstring) : jsstring :=
  match s with
  | [] => []
  | c :: s' => if is_space c then drop_spaces s' else s
  end.

(** [s.trim()] *)
Definition trim (s : jsstring) : jsstring :=
  rev (drop_spaces (rev (drop_spaces s))).

(** Relative index of [slice]: a negative index counts from the end, and
    the result is clamped to [0 .. len]. *)
Definition rel_index (len i : Z) : Z :=
  if i <? 0 then Z.max (len + i) 0 else Z.min i len.

(** [s.slice(start, stop)]; [stop = None] is the one-argument form. *)
Definition slice (s : jsstring) (start : Z) (stop : option Z) : jsstring :=
  let len := Z.of_nat (length s) in
  let from := rel_index len start in
  let to := match stop with None => len | Some e => rel_index len e end in
  take (Z.to_nat (to - from)) (drop (Z.to_nat from) s).

(** [s.startsWith(p)] *)
Fixpoint startsWith (s p : jsstring) {struct p} : bool :=
  match p, s with
  | [], _ => true
  | _ :: _, [] => false
  | a :: p', b :: s' => (a =? b)%N && startsWith s' p'
  end.

(** [s.includes(sub)] *)
Fixpoint includes (s sub : jsstring) : bool :=
  startsWith s sub ||
  match s with
  | [] => false
  | _ :: s' => includes s' sub
  end.

(** [s.split(/[\s\n]/)]: cut at every single white-space code unit.  The
    result is never empty; the empty string gives one empty word. *)
Fixpoint split_ws (s : jsstring) : list jsstring :=
  match s with
  | [] => [[]]
  | c :: s' =>
      if is_space c then [] :: split_ws s'
      else match split_ws s' with
           | w :: ws => (c :: w) :: ws
           | [] => [[c]]
           end
  end.

(** [words[words.length - 1]] for a non-empty array of strings. *)
Definition last_word (words : list jsstring) : jsstring :=
  List.last words [].

(** Decimal numeral of a natural number. *)
Definition decimal (n : N) : jsstring :=
  js (NilZero.string_of_uint (N.to_uint n)).

(** [(bytes / 1024 / 1024).toFixed(1)].  Both divisions are by powers of
    two, so the double is the exact quotient; [toFixed(1)] picks the integer
    [n] with [n / 10] nearest to it, the larger one on a tie. *)
Definition mebibytes_toFixed1 (bytes : N) : jsstring :=
  let tenths := ((20 * bytes + 1048576) / 2097152)%N in
  decimal (tenths / 10)%N ++ js "." ++ decimal (tenths mod 10)%N.

(** The state of a promise. *)
Inductive promise (A : Type) : Type :=
| Pending
| Resolved (v : A)
| Rejected (reason : jsstring).
Arguments Pending {A}.
Arguments Resolved {A} v.
Arguments Rejected {A} reason.

Definition rejected {A} (p : promise A) : bool :=
  match p with Rejected _ => true | _ => false end.

End JS.
Import JS.

(** ** services/chatApi.ts: the data model *)

Module ChatApi.

Record ConversationMember := {
  member_id : jsstring;
  member_name : jsstring;
  member_username : jsstring;
  member_email : jsstring
}.

Record MessageSender := {
  sender_uid : jsstring;
  sender_name : jsstring;
  sender_username : jsstring
}.

(** [created_at] is an ISO date string in the source; the code only ever
    reads it through [new Date(s)], so the record holds the instant it
    denotes, in milliseconds since the epoch.  The optional [reply_to]
    copy of the replied-to message is display data and is left out. *)
Record Message := {
  id : jsstring;
  conversation_id : jsstring;
  sender_id : jsstring;
  content : jsstring;
  media_type : option jsstring;
  media_data : option jsstring;
  reply_to_id : option jsstring;
  created_at : Z;
  sender : MessageSender
}.

Inductive ConversationType := group | dm.

Record Conversation := {
  conv_id : jsstring;
  conv_type : ConversationType;
  conv_name : option jsstring;
  team_id : option jsstring;
  conv_created_at : Z;
  member_count : Z;
  members : list ConversationMember;
  last_message : option jsstring;
  last_message_at : option Z;
  pinned_message : option Message
}.

End ChatApi.
Import ChatApi.

(** ** components/dashboard/ChatPage.tsx: the helpers above the component *)

Module Helpers.

(** [a || b] for [a : string | undefined] and a string [b]. *)
Definition or_else (a : option jsstring) (b : jsstring) : jsstring :=
  match a with
  | Some s => if truthy s then s else b
  | None => b
  end.

Section Locale.

(** [new Date(s).toLocaleDateString('en-US', { month: 'short', day:
    'numeric' })], and [String.prototype.toUpperCase]. *)
Variable toLocaleDateString : Z -> jsstring.
Variable toUpperCase : jsstring -> jsstring.

(** [timeAgo(dateStr)]; [now] is [Date.now()] and [then_] the instant of
    [dateStr], both in milliseconds. *)
Definition timeAgo (now then_ : Z) : jsstring :=
  let diff := Z.max 0 (now - then_) in
  let secs := diff / 1000 in
  if secs <? 60 then js "now"
  else
    let mins := secs / 60 in
    if mins <? 60 then decimal (Z.to_N mins) ++ js "m"
    else
      let hrs := mins / 60 in
      if hrs <? 24 then decimal (Z.to_N hrs) ++ js "h"
      else
        let days := hrs / 24 in
        if days <? 7 then decimal (Z.to_N days) ++ js "d"
        else toLocaleDateString then_.

(** [conv.members?.find((m) => m.id !== currentUserId)] *)
Definition other_member (conv : Conversation) (currentUserId : jsstring)
  : option ConversationMember :=
  List.find (fun m => negb (str_eqb (member_id m) currentUserId))
    (members conv).

Definition getConversationName (conv : Conversation)
    (currentUserId : jsstring) : jsstring :=
  match conv_type conv with
  | group => or_else (conv_name conv) (js "Group Chat")
  | dm =>
      let other := other_member conv currentUserId in
      or_else (member_name <$> other)
        (or_else (member_username <$> other) (js "Direct Message"))
  end.

(** [s?.[0]?.toUpperCase()] *)
Definition initial_of (s : option jsstring) : option jsstring :=
  match s with
  | Some (c :: _) => Some (toUpperCase [c])
  | _ => None
  end.

Definition getConversationAvatar (conv : Conversation)
    (currentUserId : jsstring) : jsstring :=
  match conv_type conv with
  | group => or_else (initial_of (conv_name conv)) (js "#")
  | dm =>
      let other := other_member conv currentUserId in
      or_else (initial_of (member_name <$> other))
        (or_else (initial_of (member_username <$> other)) (js "U"))
  end.

Definition getDmUsername (conv : Conversation) (currentUserId : jsstring)
  : option jsstring :=
  match conv_type conv with
  | group => None
  | dm =>
      match member_username <$> other_member conv currentUserId with
      | Some u => if truthy u then Some u else None
      | None => None
      end
  end.

End Locale.

(** [Array.prototype.sort(cmp)] for a comparator that is a consistent
    ordering: the sort is stable, so the result is the one of a stable
    insertion sort. *)
Fixpoint insert_sorted {A} (cmp : A -> A -> Z) (x : A) (l : list A)
  : list A :=
  match l with
  | [] => [x]
  | y :: l' =>
      if cmp x y <=? 0 then x :: y :: l' else y :: insert_sorted cmp x l'
  end.

Definition array_sort {A} (cmp : A -> A -> Z) (l : list A) : list A :=
  foldr (insert_sorted cmp) [] l.

End Helpers.
Import Helpers.

(** ** hooks/useSocket.ts: the shared connection *)

Module UseSocket.

(** The socket object returned by [io(API_BASE, { auth: { token }, ... })],
    with the consumers whose [connect]/[disconnect] handlers are attached. *)
Record Socket := {
  auth_token : jsstring;
  status_listeners : gset nat
}.

(** The two module-level variables, the effect cleanups React holds (one per
    consumer whose effect returned one), and a log of the transport calls
    made so far: how often [io] was called and how often [disconnect]. *)
Record World := {
  globalSocket : option Socket;
  connectionCount : Z;
  cleanups : gset nat;
  io_calls : nat;
  disconnect_calls : nat
}.

Definition initial : World :=
  {| globalSocket := None; connectionCount := 0; cleanups := ∅;
     io_calls := 0; disconnect_calls := 0 |}.

Definition add_listener (c : nat) (s : Socket) : Socket :=
  {| auth_token := auth_token s;
     status_listeners := {[c]} ∪ status_listeners s |}.

Definition remove_listener (c : nat) (s : Socket) : Socket :=
  {| auth_token := auth_token s;
     status_listeners := status_listeners s ∖ {[c]} |}.

(** The body of the [useEffect] of consumer [c]; [token] is what
    [localStorage.getItem('token')] returned. *)
Definition effect (c : nat) (token : option jsstring) (w : World) : World :=
  match token with
  | Some tok =>
      if truthy tok then
        let count := connectionCount w + 1 in
        let opened :=
          match globalSocket w with
          | None => ({| auth_token := tok; status_listeners := ∅ |},
                     S (io_calls w))
          | Some s => (s, io_calls w)
          end in
        {| globalSocket := Some (add_listener c (fst opened));
           connectionCount := count;
           cleanups := {[c]} ∪ cleanups w;
           io_calls := snd opened;
           disconnect_calls := disconnect_calls w |}
      else w
  | None => w
  end.

(** The cleanup function the effect returned for consumer [c]. *)
Definition cleanup (c : nat) (w : World) : World :=
  let count := connectionCount w - 1 in
  let sock := remove_listener c <$> globalSocket w in
  match sock with
  | Some s =>
      if count =? 0 then
        {| globalSocket := None; connectionCount := count;
           cleanups := cleanups w ∖ {[c]};
           io_calls := io_calls w;
           disconnect_calls := S (disconnect_calls w) |}
      else
        {| globalSocket := Some s; connectionCount := count;
           cleanups := cleanups w ∖ {[c]};
           io_calls := io_calls w;
           disconnect_calls := disconnect_calls w |}
  | None =>
      {| globalSocket := None; connectionCount := count;
         cleanups := cleanups w ∖ {[c]};
         io_calls := io_calls w;
         disconnect_calls := disconnect_calls w |}
  end.

(** What React does with the hook: a consumer that mounts runs the effect
    once (the dependency list is empty); a consumer that unmounts runs its
    cleanup if its effect returned one. *)
Inductive lifecycle :=
| Mount (c : nat) (token : option jsstring)
| Unmount (c : nat).

Definition step (w : World) (e : lifecycle) : World :=
  match e with
  | Mount c token =>
      if bool_decide (c ∈ cleanups w) then w else effect c token w
  | Unmount c =>
      if bool_decide (c ∈ cleanups w) then cleanup c w else w
  end.

Definition run (es : list lifecycle) : World := foldl step initial es.

(** Transports that were opened and not yet disconnected. *)
Definition live_transports (w : World) : Z :=
  Z.of_nat (io_calls w) - Z.of_nat (disconnect_calls w).

(** What every reachable world satisfies: the counter counts the consumers
    that hold a cleanup, a socket exists exactly while the counter is
    positive, and the transports opened and not yet closed are that socket. *)
Record consistent (w : World) : Prop := {
  count_is_consumers : connectionCount w = Z.of_nat (size (cleanups w));
  socket_iff_positive :
    match globalSocket w with
    | Some _ => 0 < connectionCount w
    | None => connectionCount w = 0
    end;
  live_is_socket :
    live_transports w = match globalSocket w with Some _ => 1 | None => 0 end
}.


(** The acknowledgment the server passes to the [send_message] callback:
    [response?.success] as a truth value, and [response.message]. *)
Record Ack := {
  success : bool;
  message : option Message
}.

Record SendRequest := {
  req_conversationId : jsstring;
  req_content : jsstring;
  req_replyToId : option jsstring
}.

(** [sendMessage(conversationId, content, replyToId)] up to the return of the
    promise: the state of the promise and the event emitted, if any. *)
Definition sendMessage (sock : option Socket)
    (conversationId content : jsstring) (replyToId : option jsstring)
  : promise (option Message) * option SendRequest :=
  match sock with
  | None => (Resolved None, None)
  | Some _ =>
      (Pending,
       Some {| req_conversationId := conversationId;
               req_content := content;
               req_replyToId := replyToId |})
  end.

(** The acknowledgment callback; [response = None] is an [undefined] or
    [null] response.  Resolving a settled promise does nothing. *)
Definition on_ack (response : option Ack) (p : promise (option Message))
  : promise (option Message) :=
  match p with
  | Pending =>
      match response with
      | Some r => if success r then Resolved (message r) else Resolved None
      | None => Resolved None
      end
  | settled => settled
  end.

(** The promise of [sendMessage] once the acknowledgment has come in. *)
Definition sendMessage_settled (sock : option Socket)
    (conversationId content : jsstring) (replyToId : option jsstring)
    (response : option Ack) : promise (option Message) :=
  on_ack response (fst (sendMessage sock conversationId content replyToId)).

(** The promise of [sendMessage] as a caller that awaits it finds it.
    Nothing but the acknowledgment callback settles it (the executor sets no
    timer and listens to no other event): [acked = None] is a request the
    server never acknowledges, [acked = Some response] one whose callback
    has run with [response]. *)
Definition sendMessage_awaited (sock : option Socket)
    (conversationId content : jsstring) (replyToId : option jsstring)
    (acked : option (option Ack)) : promise (option Message) :=
  match acked with
  | None => fst (sendMessage sock conversationId content replyToId)
  | Some response =>
      sendMessage_settled sock conversationId content replyToId response
  end.

(** Whether a promise has settled. *)
Definition is_settled {A} (p : promise A) : bool :=
  match p with Pending => false | _ => true end.

End UseSocket.

Import UseSocket.

(** ** components/dashboard/ChatPage.tsx: state and handlers *)

Module ChatPage.

(** [MAX_FILE_SIZE = 2 * 1024 * 1024] *)
Definition MAX_FILE_SIZE : N := 2 * 1024 * 1024.

Record MentionQuery := {
  mq_active : bool;
  mq_text : jsstring;
  mq_index : Z
}.

Record MediaPreview := {
  mp_type : jsstring;
  mp_data : jsstring;
  mp_name : jsstring
}.

(** The [File] picked in the file input. *)
Record File := {
  file_size : N;
  file_type : jsstring;
  file_name : jsstring
}.

(** The [useState] cells of the component the handlers below touch, and
    the timer reference of the typing debounce. *)
Record ChatState := {
  conversations : list Conversation;
  activeConvId : option jsstring;
  messages : list Message;
  messageInput : jsstring;
  loadingMsgs : bool;
  sending : bool;
  typingUsers : gset jsstring;
  showMobileChat : bool;
  mediaPreview : option MediaPreview;
  uploading : bool;
  uploadError : option jsstring;
  showAttachMenu : bool;
  replyingTo : option Message;
  mentionQuery : option MentionQuery;
  typingTimer : option jsstring
}.

(** The state of a freshly mounted component. *)
Definition initial : ChatState :=
  {| conversations := []; activeConvId := None; messages := [];
     messageInput := []; loadingMsgs := false; sending := false;
     typingUsers := ∅; showMobileChat := false; mediaPreview := None;
     uploading := false; uploadError := None; showAttachMenu := false;
     replyingTo := None; mentionQuery := None; typingTimer := None |}.

(** The state setters. *)
Definition setConversations (f : list Conversation -> list Conversation)
    (s : ChatState) : ChatState :=
  {| conversations := f (conversations s); activeConvId := activeConvId s;
     messages := messages s; messageInput := messageInput s;
     loadingMsgs := loadingMsgs s; sending := sending s;
     typingUsers := typingUsers s; showMobileChat := showMobileChat s;
     mediaPreview := mediaPreview s; uploading := uploading s;
     uploadError := uploadError s; showAttachMenu := showAttachMenu s;
     replyingTo := replyingTo s; mentionQuery := mentionQuery s;
     typingTimer := typingTimer s |}.

Definition setActiveConvId (v : option jsstring) (s : ChatState) : ChatState :=
  {| conversations := conversations s; activeConvId := v;
     messages := messages s; messageInput := messageInput s;
     loadingMsgs := loadingMsgs s; sending := sending s;
     typingUsers := typingUsers s; showMobileChat := showMobileChat s;
     mediaPreview := mediaPreview s; uploading := uploading s;
     uploadError := uploadError s; showAttachMenu := showAttachMenu s;
     replyingTo := replyingTo s; mentionQuery := mentionQuery s;
     typingTimer := typingTimer s |}.

Definition setMessages (f : list Message -> list Message)
    (s : ChatState) : ChatState :=
  {| conversations := conversations s; activeConvId := activeConvId s;
     messages := f (messages s); messageInput := messageInput s;
     loadingMsgs := loadingMsgs s; sending := sending s;
     typingUsers := typingUsers s; showMobileChat := showMobileChat s;
     mediaPreview := mediaPreview s; uploading := uploading s;
     uploadError := uploadError s; showAttachMenu := showAttachMenu s;
     replyingTo := replyingTo s; mentionQuery := mentionQuery s;
     typingTimer := typingTimer s |}.

Definition setMessageInput (v : jsstring) (s : ChatState) : ChatState :=
  {| conversations := conversations s; activeConvId := activeConvId s;
     messages := messages s; messageInput := v;
     loadingMsgs := loadingMsgs s; sending := sending s;
     typingUsers := typingUsers s; showMobileChat := showMobileChat s;
     mediaPreview := mediaPreview s; uploading := uploading s;
     uploadError := uploadError s; showAttachMenu := showAttachMenu s;
     replyingTo := replyingTo s; mentionQuery := mentionQuery s;
     typingTimer := typingTimer s |}.

Definition setLoadingMsgs (v : bool) (s : ChatState) : ChatState :=
  {| conversations := conversations s; activeConvId := activeConvId s;
     messages := messages s; messageInput := messageInput s;
     loadingMsgs := v; sending := sending s;
     typingUsers := typingUsers s; showMobileChat := showMobileChat s;
     mediaPreview := mediaPreview s; uploading := uploading s;
     uploadError := uploadError s; showAttachMenu := showAttachMenu s;
     replyingTo := replyingTo s; mentionQuery := mentionQuery s;
     typingTimer := typingTimer s |}.

Definition setSending (v : bool) (s : ChatState) : ChatState :=
  {| conversations := conversations s; activeConvId := activeConvId s;
     messages := messages s; messageInput := messageInput s;
     loadingMsgs := loadingMsgs s; sending := v;
     typingUsers := typingUsers s; showMobileChat := showMobileChat s;
     mediaPreview := mediaPreview s; uploading := uploading s;
     uploadError := uploadError s; showAttachMenu := showAttachMenu s;
     replyingTo := replyingTo s; mentionQuery := mentionQuery s;
     typingTimer := typingTimer s |}.

Definition setTypingUsers (f : gset jsstring -> gset jsstring)
    (s : ChatState) : ChatState :=
  {| conversations := conversations s; activeConvId := activeConvId s;
     messages := messages s; messageInput := messageInput s;
     loadingMsgs := loadingMsgs s; sending := sending s;
     typingUsers := f (typingUsers s); showMobileChat := showMobileChat s;
     mediaPreview := mediaPreview s; uploading := uploading s;
     uploadError := uploadError s; showAttachMenu := showAttachMenu s;
     replyingTo := replyingTo s; mentionQuery := mentionQuery s;
     typingTimer := typingTimer s |}.

Definition setShowMobileChat (v : bool) (s : ChatState) : ChatState :=
  {| conversations := conversations s; activeConvId := activeConvId s;
     messages := messages s; messageInput := messageInput s;
     loadingMsgs := loadingMsgs s; sending := sending s;
     typingUsers := typingUsers s; showMobileChat := v;
     mediaPreview := mediaPreview s; uploading := uploading s;
     uploadError := uploadError s; showAttachMenu := showAttachMenu s;
     replyingTo := replyingTo s; mentionQuery := mentionQuery s;
     typingTimer := typingTimer s |}.

Definition setMediaPreview (v : option MediaPreview) (s : ChatState)
  : ChatState :=
  {| conversations := conversations s; activeConvId := activeConvId s;
     messages := messages s; messageInput := messageInput s;
     loadingMsgs := loadingMsgs s; sending := sending s;
     typingUsers := typingUsers s; showMobileChat := showMobileChat s;
     mediaPreview := v; uploading := uploading s;
     uploadError := uploadError s; showAttachMenu := showAttachMenu s;
     replyingTo := replyingTo s; mentionQuery := mentionQuery s;
     typingTimer := typingTimer s |}.

Definition setUploading (v : bool) (s : ChatState) : ChatState :=
  {| conversations := conversations s; activeConvId := activeConvId s;
     messages := messages s; messageInput := messageInput s;
     loadingMsgs := loadingMsgs s; sending := sending s;
     typingUsers := typingUsers s; showMobileChat := showMobileChat s;
     mediaPreview := mediaPreview s; uploading := v;
     uploadError := uploadError s; showAttachMenu := showAttachMenu s;
     replyingTo := replyingTo s; mentionQuery := mentionQuery s;
     typingTimer := typingTimer s |}.

Definition setUploadError (v : option jsstring) (s : ChatState) : ChatState :=
  {| conversations := conversations s; activeConvId := activeConvId s;
     messages := messages s; messageInput := messageInput s;
     loadingMsgs := loadingMsgs s; sending := sending s;
     typingUsers := typingUsers s; showMobileChat := showMobileChat s;
     mediaPreview := mediaPreview s; uploading := uploading s;
     uploadError := v; showAttachMenu := showAttachMenu s;
     replyingTo := replyingTo s; mentionQuery := mentionQuery s;
     typingTimer := typingTimer s |}.

Definition setShowAttachMenu (v : bool) (s : ChatState) : ChatState :=
  {| conversations := conversations s; activeConvId := activeConvId s;
     messages := messages s; messageInput := messageInput s;
     loadingMsgs := loadingMsgs s; sending := sending s;
     typingUsers := typingUsers s; showMobileChat := showMobileChat s;
     mediaPreview := mediaPreview s; uploading := uploading s;
     uploadError := uploadError s; showAttachMenu := v;
     replyingTo := replyingTo s; mentionQuery := mentionQuery s;
     typingTimer := typingTimer s |}.

Definition setReplyingTo (v : option Message) (s : ChatState) : ChatState :=
  {| conversations := conversations s; activeConvId := activeConvId s;
     messages := messages s; messageInput := messageInput s;
     loadingMsgs := loadingMsgs s; sending := sending s;
     typingUsers := typingUsers s; showMobileChat := showMobileChat s;
     mediaPreview := mediaPreview s; uploading := uploading s;
     uploadError := uploadError s; showAttachMenu := showAttachMenu s;
     replyingTo := v; mentionQuery := mentionQuery s;
     typingTimer := typingTimer s |}.

Definition setMentionQuery (v : option MentionQuery) (s : ChatState)
  : ChatState :=
  {| conversations := conversations s; activeConvId := activeConvId s;
     messages := messages s; messageInput := messageInput s;
     loadingMsgs := loadingMsgs s; sending := sending s;
     typingUsers := typingUsers s; showMobileChat := showMobileChat s;
     mediaPreview := mediaPreview s; uploading := uploading s;
     uploadError := uploadError s; showAttachMenu := showAttachMenu s;
     replyingTo := replyingTo s; mentionQuery := v;
     typingTimer := typingTimer s |}.

Definition setTypingTimer (v : option jsstring) (s : ChatState) : ChatState :=
  {| conversations := conversations s; activeConvId := activeConvId s;
     messages := messages s; messageInput := messageInput s;
     loadingMsgs := loadingMsgs s; sending := sending s;
     typingUsers := typingUsers s; showMobileChat := showMobileChat s;
     mediaPreview := mediaPreview s; uploading := uploading s;
     uploadError := uploadError s; showAttachMenu := showAttachMenu s;
     replyingTo := replyingTo s; mentionQuery := mentionQuery s;
     typingTimer := v |}.

(** What a handler asks of the outside: socket emissions through the hook,
    and the requests whose promise it awaits. *)
Inductive Call :=
| emitTypingStart (conversationId : jsstring)
| emitTypingStop (conversationId : jsstring)
| call_sendMessage (conversationId content : jsstring)
    (replyToId : option jsstring)
| call_sendMediaMessage (conversationId mediaType mediaData : jsstring)
    (content : option jsstring) (replyToId : option jsstring)
| call_getMessages (conversationId : jsstring)
| call_pinMessage (conversationId : jsstring) (messageId : option jsstring)
| call_readAsDataURL (file : File).

Section Component.

(** [auth.user?.id || ''] from the store. *)
Variable currentUserId : jsstring.
(** [String.prototype.toLowerCase], and [new Date(ms).toDateString()] in
    the local time zone of the browser. *)
Variable toLowerCase : jsstring -> jsstring.
Variable toDateString : Z -> jsstring.

(** [conversations.find((c) => c.id === activeConvId)] *)
Definition activeConv (st : ChatState) : option Conversation :=
  List.find (fun c => opt_str_eqb (conv_id c) (activeConvId st))
    (conversations st).

(** *** Loading the messages of the active conversation *)

(** [loadMessages(convId)] up to [await chatApi.getMessages(convId)]. *)
Definition loadMessages (convId : jsstring) (st : ChatState)
  : ChatState * list Call :=
  (setLoadingMsgs true st, [call_getMessages convId]).

(** [loadMessages(convId)] from the settled promise on: [try] body, [catch]
    and [finally]. *)
Definition loadMessages_settled (convId : jsstring)
    (result : promise (list Message)) (st : ChatState) : ChatState :=
  match result with
  | Pending => st
  | Resolved msgs => setLoadingMsgs false (setMessages (fun _ => msgs) st)
  | Rejected _ => setLoadingMsgs false st
  end.

(** The effect on [activeConvId]. *)
Definition activeConvId_effect (st : ChatState) : ChatState * list Call :=
  match activeConvId st with
  | Some convId =>
      if truthy convId then loadMessages convId st else (st, [])
  | None => (st, [])
  end.

Definition handleSelectConversation (convId : jsstring) (st : ChatState)
  : ChatState :=
  setReplyingTo None
    (setTypingUsers (fun _ => ∅)
       (setShowMobileChat true (setActiveConvId (Some convId) st))).

(** A click on a conversation: the handler, then the render that follows
    it, which runs the effect when [activeConvId] has changed. *)
Definition select_conversation (convId : jsstring) (st : ChatState)
  : ChatState * list Call :=
  let st' := handleSelectConversation convId st in
  if bool_decide (activeConvId st = activeConvId st') then (st', [])
  else activeConvId_effect st'.

(** *** New messages *)

(** [last_message_at || created_at], as an instant. *)
Definition last_activity (c : Conversation) : Z :=
  default (conv_created_at c) (last_message_at c).

(** [Array.prototype.sort] with the comparator
    [(a, b) => time(b) - time(a)]: a stable sort, newest first. *)
Fixpoint insert_by_recency (c : Conversation) (l : list Conversation)
  : list Conversation :=
  match l with
  | [] => [c]
  | d :: l' =>
      if last_activity d - last_activity c <=? 0 then c :: d :: l'
      else d :: insert_by_recency c l'
  end.

Definition sort_by_recency (l : list Conversation) : list Conversation :=
  foldr insert_by_recency [] l.

(** The summary line of a message: a paper-clip label for media, the
    text otherwise. *)
Definition summary_of (message : Message) : jsstring :=
  if truthy_opt (media_type message) then
    [55357; 56526; 32]%N ++
    (if startsWith (default [] (media_type message)) (js "image")
     then js "Photo" else js "Video")
  else content message.

Definition touch_conversation (message : Message) (c : Conversation)
  : Conversation :=
  if str_eqb (conv_id c) (conversation_id message) then
    {| conv_id := conv_id c; conv_type := conv_type c;
       conv_name := conv_name c; team_id := team_id c;
       conv_created_at := conv_created_at c;
       member_count := member_count c; members := members c;
       last_message := Some (summary_of message);
       last_message_at := Some (created_at message);
       pinned_message := pinned_message c |}
  else c.

(** [prev.some((m) => m.id === message.id)] *)
Definition has_message (prev : list Message) (message : Message) : bool :=
  existsb (fun m => str_eqb (id m) (id message)) prev.

(** The updater passed to [setMessages] on a [new_message] event. *)
Definition appendIfNew (message : Message) (prev : list Message)
  : list Message :=
  if has_message prev message then prev else prev ++ [message].

(** The callback registered with [onNewMessage]. *)
Definition onNewMessage_handler (message : Message) (st : ChatState)
  : ChatState :=
  let st1 :=
    if opt_str_eqb (conversation_id message) (activeConvId st)
    then setMessages (appendIfNew message) st
    else st in
  setConversations
    (fun prev => sort_by_recency (List.map (touch_conversation message) prev))
    st1.

(** The other thing the callback does: [setTimeout(() => scrollToBottom(),
    50)], inside the test for the active conversation and outside the test
    for a known id.  The delay of the scroll it schedules, if any. *)
Definition onNewMessage_scroll (message : Message) (st : ChatState)
  : option Z :=
  if opt_str_eqb (conversation_id message) (activeConvId st)
  then Some 50 else None.

(** A sequence of [new_message] events, oldest first. *)
Definition deliver (events : list Message) (st : ChatState) : ChatState :=
  foldl (fun s m => onNewMessage_handler m s) st events.

(** *** Grouping by date, and the order of the rendered timeline *)

Record DateGroup := {
  date : jsstring;
  group_messages : list Message
}.

(** One round of the [messages.forEach] that fills [groupedMessages]. *)
Definition push_grouped (groups : list DateGroup) (msg : Message)
  : list DateGroup :=
  let d := toDateString (created_at msg) in
  match last groups with
  | Some g =>
      if str_eqb (date g) d then
        removelast groups ++
        [{| date := date g; group_messages := group_messages g ++ [msg] |}]
      else groups ++ [{| date := d; group_messages := [msg] |}]
  | None => groups ++ [{| date := d; group_messages := [msg] |}]
  end.

Definition groupedMessages (st : ChatState) : list DateGroup :=
  foldl push_grouped [] (messages st).

(** A group is well formed when it is not empty and its messages all fall
    on its date. *)
Definition group_ok (g : DateGroup) : Prop :=
  group_messages g <> [] /\
  Forall (fun x => toDateString (created_at x) = date g) (group_messages g).

(** Well-formed groups, no two neighbours with the same date. *)
Inductive grouped : list DateGroup -> Prop :=
| grouped_nil : grouped []
| grouped_one g : group_ok g -> grouped [g]
| grouped_snoc gs g g' :
    grouped (gs ++ [g]) -> group_ok g' -> date g <> date g' ->
    grouped ((gs ++ [g]) ++ [g']).

(** [groupedMessages.map((group) => group.messages.map(...))], read in
    document order. *)
Definition flatten (groups : list DateGroup) : list Message :=
  concat (List.map group_messages groups).

(** The message bubbles in the order the JSX emits them: nothing while
    loading, else every group in turn and every message of a group. *)
Definition rendered_timeline (st : ChatState) : list Message :=
  if loadingMsgs st then [] else flatten (groupedMessages st).

(** *** Typing indicators *)

Record TypingEvent := {
  ev_conversationId : jsstring;
  ev_userId : jsstring
}.

(** The callback registered with [onTyping]. *)
Definition onTyping_handler (data : TypingEvent) (st : ChatState)
  : ChatState :=
  if opt_str_eqb (ev_conversationId data) (activeConvId st)
     && negb (str_eqb (ev_userId data) currentUserId)
  then setTypingUsers (fun prev => prev ∪ {[ev_userId data]}) st
  else st.

(** The callback registered with [onStopTyping]. *)
Definition onStopTyping_handler (data : TypingEvent) (st : ChatState)
  : ChatState :=
  if opt_str_eqb (ev_conversationId data) (activeConvId st)
  then setTypingUsers (fun prev => prev ∖ {[ev_userId data]}) st
  else st.

(** *** Sending *)

(** [handleSendMedia()] up to [await chatApi.sendMediaMessage(...)]. *)
Definition handleSendMedia (st : ChatState) : ChatState * list Call :=
  match mediaPreview st, activeConvId st with
  | Some preview, Some convId =>
      if negb (truthy convId) || uploading st then (st, [])
      else
        let text := trim (messageInput st) in
        (setUploadError None (setUploading true st),
         [call_sendMediaMessage convId (mp_type preview) (mp_data preview)
            (if truthy text then Some text else None)
            (id <$> replyingTo st)])
  | _, _ => (st, [])
  end.

(** [handleSendMedia()] from the settled upload on. *)
Definition handleSendMedia_settled (result : promise Message)
    (st : ChatState) : ChatState :=
  match result with
  | Pending => st
  | Resolved _ =>
      setUploading false
        (setReplyingTo None (setMessageInput [] (setMediaPreview None st)))
  | Rejected err =>
      setUploading false
        (setUploadError
           (Some (if truthy err then err else js "Failed to send media")) st)
  end.

(** [handleSend()] up to its [await]: the guard, the media branch, and for
    a text message the optimistic clearing and the call of [sendMessage]. *)
Definition handleSend (st : ChatState) : ChatState * list Call :=
  match activeConvId st with
  | Some convId =>
      if (negb (truthy (trim (messageInput st)))
          && negb (bool_decide (is_Some (mediaPreview st))))
         || negb (truthy convId) || sending st || uploading st
      then (st, [])
      else if bool_decide (is_Some (mediaPreview st)) then handleSendMedia st
      else
        let content := trim (messageInput st) in
        let replyToId := id <$> replyingTo st in
        (setSending true (setReplyingTo None (setMessageInput [] st)),
         [call_sendMessage convId content replyToId])
  | None => (st, [])
  end.

(** [handleSend()] from the settled [sendMessage] promise on; [convId] and
    [content] are the values the closure captured. *)
Definition handleSend_settled (convId content : jsstring)
    (result : promise (option Message)) (st : ChatState)
  : ChatState * list Call :=
  match result with
  | Pending => (st, [])
  | Resolved _ => (setSending false st, [emitTypingStop convId])
  | Rejected _ => (setSending false (setMessageInput content st), [])
  end.

(** When the guard of [handleSend] lets a text message through. *)
Record sendable_text (st : ChatState) (convId : jsstring) : Prop := {
  send_active : activeConvId st = Some convId;
  send_conv_truthy : truthy convId = true;
  send_text_nonblank : truthy (trim (messageInput st)) = true;
  send_no_media : mediaPreview st = None;
  send_not_sending : sending st = false;
  send_not_uploading : uploading st = false
}.

(** When the guard of [handleSend] lets a staged attachment through. *)
Record sendable_media (st : ChatState) (convId : jsstring)
    (preview : MediaPreview) : Prop := {
  media_active : activeConvId st = Some convId;
  media_conv_truthy : truthy convId = true;
  media_staged : mediaPreview st = Some preview;
  media_not_sending : sending st = false;
  media_not_uploading : uploading st = false
}.

(** A text send from the key press to the end of [handleSend], over the
    shared socket [sock] and with the acknowledgment [response]. *)
Definition send_text (sock : option Socket) (response : option Ack)
    (st : ChatState) : ChatState * list Call :=
  match handleSend st with
  | (st1, [call_sendMessage convId content replyToId]) =>
      handleSend_settled convId content
        (sendMessage_settled sock convId content replyToId response) st1
  | other => other
  end.

(** *** Attachments *)

(** [handleFileSelect(e)]; [file] is [e.target.files?.[0]]. *)
Definition handleFileSelect (file : option File) (st : ChatState)
  : ChatState * list Call :=
  match file with
  | None => (st, [])
  | Some f =>
      let st1 := setShowAttachMenu false (setUploadError None st) in
      if (MAX_FILE_SIZE <? file_size f)%N then
        (setUploadError
           (Some (js "File too large (" ++ mebibytes_toFixed1 (file_size f)
                  ++ js "MB). Max 2MB.")) st1, [])
      else
        let isImage := startsWith (file_type f) (js "image/") in
        let isVideo := startsWith (file_type f) (js "video/") in
        if negb isImage && negb isVideo then
          (setUploadError (Some (js "Only images and videos are supported."))
             st1, [])
        else (st1, [call_readAsDataURL f])
  end.

(** The type test of [handleFileSelect]: [isImage || isVideo]. *)
Definition allowed_type (f : File) : bool :=
  startsWith (file_type f) (js "image/")
  || startsWith (file_type f) (js "video/").

(** [reader.onload] and [reader.onerror] of the read started above. *)
Definition reader_onload (f : File) (result : jsstring) (st : ChatState)
  : ChatState :=
  setMediaPreview
    (Some {| mp_type := file_type f; mp_data := result;
             mp_name := file_name f |}) st.

Definition reader_onerror (st : ChatState) : ChatState :=
  setUploadError (Some (js "Failed to read file.")) st.

(** A file selection followed by the outcome of the read it may have
    started: [Some data] when the reader loads, [None] when it fails. *)
Definition select_file (f : File) (read : option jsstring) (st : ChatState)
  : ChatState :=
  match handleFileSelect (Some f) st with
  | (st1, [call_readAsDataURL f']) =>
      match read with
      | Some data => reader_onload f' data st1
      | None => reader_onerror st1
      end
  | (st1, _) => st1
  end.

(** The only place the JSX shows [uploadError]: inside the media preview
    bar, which is rendered only while [mediaPreview] is set. *)
Definition rendered_uploadError (st : ChatState) : option jsstring :=
  match mediaPreview st with
  | Some _ => if truthy_opt (uploadError st) then uploadError st else None
  | None => None
  end.

(** The upload requests a run of the composer can issue carry the staged
    preview and nothing else. *)
Definition transmitted_media (calls : list Call) : list (jsstring * jsstring) :=
  omap (fun c => match c with
                 | call_sendMediaMessage _ ty data _ _ => Some (ty, data)
                 | _ => None
                 end) calls.

(** *** Typing in the composer, and mentions *)

(** [handleInputChange(val)]; [selectionStart] is
    [textareaRef.current?.selectionStart]. *)
Definition handleInputChange (val : jsstring) (selectionStart : option Z)
    (st : ChatState) : ChatState * list Call :=
  let st1 := setMessageInput val st in
  let cursorPosition := default 0 selectionStart in
  let textBeforeCursor := slice val 0 (Some cursorPosition) in
  let words := split_ws textBeforeCursor in
  let currentWord := last_word words in
  let st2 :=
    if startsWith currentWord (js "@") then
      setMentionQuery
        (Some {| mq_active := true;
                 mq_text := toLowerCase (slice currentWord 1 None);
                 mq_index := cursorPosition - Z.of_nat (length currentWord) |})
        st1
    else setMentionQuery None st1 in
  match activeConvId st with
  | Some convId =>
      if truthy convId then
        if truthy (trim val)
        then (setTypingTimer (Some convId) st2, [emitTypingStart convId])
        else (st2, [emitTypingStop convId])
      else (st2, [])
  | None => (st2, [])
  end.

(** [handleMentionSelect(username)]; [selectionStart] is again read from
    the text area at the time of the call. *)
Definition handleMentionSelect (username : jsstring)
    (selectionStart : option Z) (st : ChatState) : ChatState :=
  match mentionQuery st with
  | None => st
  | Some q =>
      let beforeMention := slice (messageInput st) 0 (Some (mq_index q)) in
      let afterMention :=
        slice (messageInput st) (default 0 selectionStart) None in
      let newText := beforeMention ++ js "@" ++ username ++ js " "
                     ++ afterMention in
      setMentionQuery None (setMessageInput newText st)
  end.

(** The candidates of the mention drop-down. *)
Definition mentionableMembers (st : ChatState) : list ConversationMember :=
  let q := default [] (mq_text <$> mentionQuery st) in
  match activeConv st with
  | Some c =>
      List.filter
        (fun m => negb (str_eqb (member_id m) currentUserId)
                  && (includes (toLowerCase (member_username m)) q
                      || includes (toLowerCase (member_name m)) q))
        (members c)
  | None => []
  end.

(** *** Pinning a message *)

(** What the closure of [handleToggleGlobalPin] holds across its [await]. *)
Record PinIntent := {
  pin_conv : jsstring;
  isCurrentlyPinned : bool;
  pin_message : Message
}.

(** [handleToggleGlobalPin(message)] up to [await chatApi.pinMessage(...)];
    [None] when the guard returns early. *)
Definition handleToggleGlobalPin (message : Message) (st : ChatState)
  : option PinIntent :=
  match activeConvId st with
  | Some convId =>
      if truthy convId then
        Some {| pin_conv := convId;
                isCurrentlyPinned :=
                  match activeConv st ≫= pinned_message with
                  | Some p => str_eqb (id p) (id message)
                  | None => false
                  end;
                pin_message := message |}
      else None
  | None => None
  end.

(** The request it sends. *)
Definition pin_call (i : PinIntent) : Call :=
  call_pinMessage (pin_conv i)
    (if isCurrentlyPinned i then None else Some (id (pin_message i))).

Definition set_pinned (p : option Message) (c : Conversation) : Conversation :=
  {| conv_id := conv_id c; conv_type := conv_type c;
     conv_name := conv_name c; team_id := team_id c;
     conv_created_at := conv_created_at c;
     member_count := member_count c; members := members c;
     last_message := last_message c;
     last_message_at := last_message_at c;
     pinned_message := p |}.

(** [handleToggleGlobalPin] from the settled request on. *)
Definition handleToggleGlobalPin_settled (i : PinIntent)
    (result : promise unit) (st : ChatState) : ChatState :=
  match result with
  | Resolved _ =>
      setConversations
        (List.map (fun c =>
           if str_eqb (conv_id c) (pin_conv i)
           then set_pinned
                  (if isCurrentlyPinned i then None else Some (pin_message i))
                  c
           else c)) st
  | _ => st
  end.

(** One use of the pin button, from the click to the end of the handler. *)
Definition toggle_pin (message : Message) (result : promise unit)
    (st : ChatState) : ChatState :=
  match handleToggleGlobalPin message st with
  | Some i => handleToggleGlobalPin_settled i result st
  | None => st
  end.

(** The pinned-message slot of the active conversation. *)
Definition pinned_slot (st : ChatState) : option Message :=
  activeConv st ≫= pinned_message.

(** Conversation [c] has a pinned message with the id of [message]: what
    [isCurrentlyPinned] tests. *)
Definition pins (c : Conversation) (message : Message) : Prop :=
  id <$> pinned_message c = Some (id message).

#[export] Instance pins_dec c message : Decision (pins c message).
Proof. unfold pins. apply _. Defined.

(** *** The conversation directory *)

(** The updater [(prev) => prev.some((c) => c.id === conversation.id) ? prev
    : [conversation, ...prev]], which [onNewConversation] and
    [handleCreateDm] both pass to [setConversations]. *)
Definition prependIfNew (conversation : Conversation)
    (prev : list Conversation) : list Conversation :=
  if existsb (fun c => str_eqb (conv_id c) (conv_id conversation)) prev
  then prev else conversation :: prev.

(** The callback registered with [onNewConversation]: the new state and
    the ids passed to [joinConversation]. *)
Definition onNewConversation_handler (conversation : Conversation)
    (st : ChatState) : ChatState * list jsstring :=
  (setConversations (prependIfNew conversation) st, [conv_id conversation]).

Record PinnedUpdate := {
  pu_conversationId : jsstring;
  pu_pinnedMessage : option Message
}.

(** The callback registered with [onPinnedMessageUpdated]. *)
Definition onPinnedMessageUpdated_handler (data : PinnedUpdate)
    (st : ChatState) : ChatState :=
  setConversations
    (List.map (fun c =>
       if str_eqb (conv_id c) (pu_conversationId data)
       then set_pinned (pu_pinnedMessage data) c
       else c)) st.

(** *** The sidebar *)

(** The updater of [togglePin(convId, e)] on the locally pinned
    conversations. *)
Definition togglePin (convId : jsstring) (prev : list jsstring)
  : list jsstring :=
  if bool_decide (convId ∈ prev)
  then List.filter (fun i => negb (str_eqb i convId)) prev
  else prev ++ [convId].

Definition is_group (c : Conversation) : bool :=
  match conv_type c with group => true | dm => false end.

Definition is_dm (c : Conversation) : bool :=
  match conv_type c with group => false | dm => true end.

Definition filteredConversations (searchFilter : jsstring) (st : ChatState)
  : list Conversation :=
  List.filter
    (fun c =>
       if truthy searchFilter
       then includes (toLowerCase (getConversationName c currentUserId))
              (toLowerCase searchFilter)
       else true)
    (conversations st).

Definition groupConversations (searchFilter : jsstring) (st : ChatState)
  : list Conversation :=
  List.filter is_group (filteredConversations searchFilter st).

Definition dmConversations (searchFilter : jsstring) (st : ChatState)
  : list Conversation :=
  List.filter is_dm (filteredConversations searchFilter st).

(** [pinnedConvs.includes(c.id)] *)
Definition is_pinned (pinnedConvs : list jsstring) (c : Conversation)
  : bool :=
  bool_decide (conv_id c ∈ pinnedConvs).

Definition sortConvs (pinnedConvs : list jsstring) (a b : Conversation) : Z :=
  let aPinned := is_pinned pinnedConvs a in
  let bPinned := is_pinned pinnedConvs b in
  if aPinned && negb bPinned then -1
  else if negb aPinned && bPinned then 1
  else 0.

Definition sortedGroups (pinnedConvs : list jsstring)
    (searchFilter : jsstring) (st : ChatState) : list Conversation :=
  array_sort (sortConvs pinnedConvs) (groupConversations searchFilter st).

Definition sortedDms (pinnedConvs : list jsstring)
    (searchFilter : jsstring) (st : ChatState) : list Conversation :=
  array_sort (sortConvs pinnedConvs) (dmConversations searchFilter st).

End Component.

End ChatPage.

(** ** Sample data for the worked examples *)

Module Sample.
Import ChatPage.

(** [toLowerCase] on strings of ASCII code units. *)
Definition ascii_toLowerCase (s : jsstring) : jsstring :=
  List.map (fun c => if (65 <=? c) && (c <=? 90) then c + 32 else c)%N s.

(** [toDateString] in a browser whose time zone is UTC, up to the spelling
    of the day: the number of the day since the epoch. *)
Definition utc_day (ms : Z) : jsstring := decimal (Z.to_N (ms / 86400000)).

Definition alice : MessageSender :=
  {| sender_uid := js "u-alice"; sender_name := js "Alice";
     sender_username := js "alice" |}.

(** A text message of conversation [conv] sent by Alice at [ms]. *)
Definition text_message (mid conv body : string) (ms : Z) : Message :=
  {| id := js mid; conversation_id := js conv; sender_id := js "u-alice";
     content := js body; media_type := None; media_data := None;
     reply_to_id := None; created_at := ms; sender := alice |}.

(** Three messages of conversation A, stamped 10:00, 10:01 and 10:02. *)
Definition m1000 := text_message "m-1000" "A" "first" 36000000.
Definition m1001 := text_message "m-1001" "A" "second" 36060000.
Definition m1002 := text_message "m-1002" "A" "third" 36120000.
(** A message of conversation B. *)
Definition mB := text_message "m-b" "B" "other" 36030000.

Definition member (uid uname : string) : ConversationMember :=
  {| member_id := js uid; member_name := js uname;
     member_username := js uname; member_email := js "" |}.

Definition convA : Conversation :=
  {| conv_id := js "A"; conv_type := group; conv_name := Some (js "team");
     team_id := None; conv_created_at := 0; member_count := 3;
     members := [member "u-me" "me"; member "u-amy" "amy";
                 member "u-amir" "amir"];
     last_message := None; last_message_at := None;
     pinned_message := None |}.

(** The page with conversation A open and nothing loaded. *)
Definition openA : ChatState :=
  setActiveConvId (Some (js "A"))
    (setConversations (fun _ => [convA]) initial).

(** A PNG image of 3 MiB. *)
Definition png_3MiB : File :=
  {| file_size := 3 * 1024 * 1024; file_type := js "image/png";
     file_name := js "photo.png" |}.

(** A direct conversation B, last active shortly after the epoch, and the
    page with B above A in the directory and A open. *)
Definition convB : Conversation :=
  {| conv_id := js "B"; conv_type := dm; conv_name := None;
     team_id := None; conv_created_at := 0; member_count := 2;
     members := [member "u-me" "me"; member "u-amy" "amy"];
     last_message := Some (js "hello"); last_message_at := Some 100;
     pinned_message := None |}.

Definition openA_belowB : ChatState :=
  setActiveConvId (Some (js "A"))
    (setConversations (fun _ => [convB; convA]) initial).

(** A staged GIF. *)
Definition gif_preview : MediaPreview :=
  {| mp_type := js "image/gif"; mp_data := js "data:image/gif;base64,R0lG";
     mp_name := js "a.gif" |}.

End Sample.

(** * Properties *)

(** ** The shared connection *)

Section SharedConnection.
Import UseSocket.

Lemma consistent_initial : consistent initial.
Proof. split; reflexivity. Qed.

Ltac world_fields :=
  cbn [globalSocket connectionCount cleanups io_calls disconnect_calls
       fst snd].

Lemma size_add_fresh (c : nat) (X : gset nat) :
  c ∉ X -> size ({[c]} ∪ X) = S (size X).
Proof.
  intros Hc. rewrite size_union by set_solver. now rewrite size_singleton.
Qed.

Lemma size_remove_member (c : nat) (X : gset nat) :
  c ∈ X -> S (size (X ∖ {[c]})) = size X.
Proof.
  intros Hc.
  rewrite size_difference by set_solver. rewrite size_singleton.
  assert (size X ≠ 0%nat) by (apply size_non_empty_iff; set_solver).
  lia.
Qed.

Lemma effect_consistent c token w :
  c ∉ cleanups w -> consistent w -> consistent (effect c token w).
Proof.
  intros Hc [Hn Hs Hl]. unfold effect.
  destruct token as [tok|]; [|now split].
  destruct (truthy tok); [|now split].
  destruct (globalSocket w) as [s|]; split;
    unfold live_transports in *; world_fields;
    rewrite ?size_add_fresh by assumption; lia.
Qed.

Lemma cleanup_consistent c w :
  c ∈ cleanups w -> consistent w -> consistent (cleanup c w).
Proof.
  intros Hc [Hn Hs Hl]. unfold cleanup.
  pose proof (size_remove_member c _ Hc) as Hsz.
  destruct (globalSocket w) as [s|]; cbn [fmap option_fmap option_map].
  - destruct (Z.eqb_spec (connectionCount w - 1) 0); split;
      unfold live_transports in *; world_fields; lia.
  - split; unfold live_transports in *; world_fields; lia.
Qed.

Lemma step_consistent w e : consistent w -> consistent (step w e).
Proof.
  intros Hw. destruct e as [c token|c]; simpl; case_bool_decide; auto.
  - now apply effect_consistent.
  - now apply cleanup_consistent.
Qed.

Lemma foldl_step_consistent es w :
  consistent w -> consistent (foldl step w es).
Proof.
  revert w. induction es as [|e es IH]; intros w Hw; simpl; auto.
  apply IH, step_consistent, Hw.
Qed.

Lemma run_consistent es : consistent (run es).
Proof. apply foldl_step_consistent, consistent_initial. Qed.

(** A mount that finds a socket keeps it and calls [io] no more. *)
Lemma mount_reuses w c token :
  match globalSocket w with
  | Some s =>
      io_calls (step w (Mount c token)) = io_calls w /\
      auth_token <$> globalSocket (step w (Mount c token))
        = Some (auth_token s)
  | None => True
  end.
Proof.
  destruct (globalSocket w) as [s|] eqn:Hs; [|exact I].
  simpl. case_bool_decide; [now rewrite Hs|].
  unfold effect. destruct token as [tok|]; [|now rewrite Hs].
  destruct (truthy tok); [|now rewrite Hs].
  rewrite Hs. now simpl.
Qed.

(** [disconnect] is called by no step but a cleanup that brings the counter
    to zero. *)
Lemma disconnect_only_at_zero w e :
  disconnect_calls (step w e) = disconnect_calls w \/
  (connectionCount (step w e) = 0 /\ globalSocket (step w e) = None /\
   connectionCount w = 1 /\
   disconnect_calls (step w e) = S (disconnect_calls w)).
Proof.
  destruct e as [c token|c]; simpl; case_bool_decide; auto.
  - left. unfold effect. destruct token as [tok|]; auto.
    now destruct (truthy tok).
  - unfold cleanup.
    destruct (globalSocket w) as [s|]; simpl; auto.
    destruct (Z.eqb_spec (connectionCount w - 1) 0); simpl; auto.
    right. repeat split; lia.
Qed.

(** C9.  Over every sequence of mounts and unmounts of consumers of the
    hook: at most one transport is open at any time, and it is the shared
    socket; the counter is the number of registered consumers; a mount that
    finds a socket reuses it and opens nothing; a mount without a token (or
    with the empty token) changes nothing and so attempts no connection; and
    a step disconnects only if it is the cleanup that takes the counter from
    one to zero, after which no socket is left. *)
Theorem single_shared_transport (es : list lifecycle) :
  (0 <= live_transports (run es) <= 1) /\
  live_transports (run es)
    = match globalSocket (run es) with Some _ => 1 | None => 0 end /\
  connectionCount (run es) = Z.of_nat (size (cleanups (run es))) /\
  (forall c token,
     match globalSocket (run es) with
     | Some s =>
         io_calls (step (run es) (Mount c token)) = io_calls (run es) /\
         auth_token <$> globalSocket (step (run es) (Mount c token))
           = Some (auth_token s)
     | None => True
     end) /\
  (forall c,
     step (run es) (Mount c None) = run es /\
     step (run es) (Mount c (Some [])) = run es) /\
  (forall e,
     disconnect_calls (step (run es) e) = disconnect_calls (run es) \/
     (connectionCount (step (run es) e) = 0 /\
      globalSocket (step (run es) e) = None /\
      connectionCount (run es) = 1 /\
      disconnect_calls (step (run es) e) = S (disconnect_calls (run es)))).
Proof.
  destruct (run_consistent es) as [Hn Hs Hl].
  repeat split.
  - rewrite Hl. destruct (globalSocket (run es)); lia.
  - rewrite Hl. destruct (globalSocket (run es)); lia.
  - exact Hl.
  - exact Hn.
  - intros c token. apply mount_reuses.
  - simpl. now case_bool_decide.
  - simpl. now case_bool_decide.
  - intros e. apply disconnect_only_at_zero.
Qed.

(** Two consumers with a token, of which one unmounts: one [io] call, no
    [disconnect], and the socket is still there. *)
Example two_consumers_one_transport :
  let w := run [Mount 1 (Some (js "t")); Mount 2 (Some (js "t")); Unmount 1] in
  (connectionCount w, io_calls w, disconnect_calls w) = (1, 1%nat, 0%nat) /\
  is_Some (globalSocket w).
Proof. split; [vm_compute; reflexivity | vm_compute; eauto]. Qed.

(** C10, as the code has it.  The promise of [sendMessage] is never
    rejected.  Without a socket it is resolved with [null] at once and
    nothing is emitted.  With a socket exactly one [send_message] request
    with the three arguments is emitted, and the promise is pending until
    the acknowledgment callback of that request runs: then it is resolved
    with the message of the acknowledgment when that reports success, and
    with [null] when it reports failure or carries nothing.  A request that
    is never acknowledged leaves the promise pending. *)
Theorem sendMessage_settles_only_on_ack
    (sock : option Socket) (conversationId content : jsstring)
    (replyToId : option jsstring) (acked : option (option Ack)) :
  rejected (sendMessage_awaited sock conversationId content replyToId acked)
  = false /\
  sendMessage_awaited sock conversationId content replyToId acked
  = match sock, acked with
    | None, _ => Resolved None
    | Some _, None => Pending
    | Some _, Some None => Resolved None
    | Some _, Some (Some r) =>
        Resolved (if success r then message r else None)
    end /\
  snd (sendMessage sock conversationId content replyToId)
  = match sock with
    | None => None
    | Some _ =>
        Some {| req_conversationId := conversationId;
                req_content := content;
                req_replyToId := replyToId |}
    end.
Proof.
  unfold sendMessage_awaited, sendMessage_settled, sendMessage, on_ack.
  destruct sock as [s|], acked as [[[[] m]|]|]; simpl; auto.
Qed.

(** C10, the claim at a request that is never acknowledged.  The socket
    exists and the request goes out, but no acknowledgment comes back: the
    promise is neither resolved nor rejected, it stays pending. *)
Lemma unacknowledged_send_stays_pending :
  sendMessage_awaited
    (Some {| auth_token := js "t"; status_listeners := ∅ |})
    (js "A") (js "hello") None None
  = Pending /\
  is_settled
    (sendMessage_awaited
       (Some {| auth_token := js "t"; status_listeners := ∅ |})
       (js "A") (js "hello") None None)
  = false /\
  snd (sendMessage
         (Some {| auth_token := js "t"; status_listeners := ∅ |})
         (js "A") (js "hello") None)
  = Some {| req_conversationId := js "A"; req_content := js "hello";
            req_replyToId := None |}.
Proof. repeat split. Qed.

End SharedConnection.

(** ** The message timeline *)

Section Timeline.
Import ChatPage.

Variable toDateString : Z -> jsstring.

(** The handler touches the timeline only through [appendIfNew], and only
    for a message of the active conversation. *)
Lemma messages_onNewMessage (m : Message) (st : ChatState) :
  messages (onNewMessage_handler m st)
  = if opt_str_eqb (conversation_id m) (activeConvId st)
    then appendIfNew m (messages st) else messages st.
Proof.
  unfold onNewMessage_handler.
  now destruct (opt_str_eqb (conversation_id m) (activeConvId st)).
Qed.

Lemma activeConvId_onNewMessage (m : Message) (st : ChatState) :
  activeConvId (onNewMessage_handler m st) = activeConvId st.
Proof.
  unfold onNewMessage_handler.
  now destruct (opt_str_eqb (conversation_id m) (activeConvId st)).
Qed.

Lemma loadingMsgs_onNewMessage (m : Message) (st : ChatState) :
  loadingMsgs (onNewMessage_handler m st) = loadingMsgs st.
Proof.
  unfold onNewMessage_handler.
  now destruct (opt_str_eqb (conversation_id m) (activeConvId st)).
Qed.

Lemma has_message_spec (prev : list Message) (m : Message) :
  has_message prev m = true <-> id m ∈ id <$> prev.
Proof.
  unfold has_message, str_eqb. rewrite existsb_exists, list_elem_of_fmap.
  split.
  - intros (x & H1 & H2). exists x. apply bool_decide_eq_true in H2.
    split; [congruence | now apply list_elem_of_In].
  - intros (x & H1 & H2). exists x.
    split; [now apply list_elem_of_In | now apply bool_decide_eq_true].
Qed.

Lemma appendIfNew_present (prev : list Message) (m : Message) :
  id m ∈ id <$> prev -> appendIfNew m prev = prev.
Proof.
  intros H. unfold appendIfNew.
  now rewrite (proj2 (has_message_spec prev m) H).
Qed.

Lemma appendIfNew_NoDup (prev : list Message) (m : Message) :
  NoDup (id <$> prev) -> NoDup (id <$> appendIfNew m prev).
Proof.
  intros Hnd. unfold appendIfNew.
  destruct (has_message prev m) eqn:Hm; [exact Hnd|].
  rewrite fmap_app. apply NoDup_app. repeat split.
  - exact Hnd.
  - intros x Hx Hx'. apply list_elem_of_singleton in Hx'. subst x.
    apply has_message_spec in Hx. congruence.
  - apply NoDup_singleton.
Qed.

Lemma onNewMessage_NoDup (m : Message) (st : ChatState) :
  NoDup (id <$> messages st) ->
  NoDup (id <$> messages (onNewMessage_handler m st)).
Proof.
  intros H. rewrite messages_onNewMessage.
  destruct (opt_str_eqb _ _); [now apply appendIfNew_NoDup | exact H].
Qed.

Lemma deliver_NoDup (events : list Message) (st : ChatState) :
  NoDup (id <$> messages st) ->
  NoDup (id <$> messages (deliver events st)).
Proof.
  unfold deliver. revert st.
  induction events as [|m events IH]; intros st H; simpl; [exact H|].
  apply IH, onNewMessage_NoDup, H.
Qed.

(** C1.  Whatever [new_message] events are delivered, duplicates included,
    a timeline whose ids are pairwise distinct keeps pairwise distinct ids;
    and an event whose id is already in the timeline leaves the timeline as
    it is. *)
Theorem timeline_ids_stay_unique (events : list Message) (st : ChatState) :
  NoDup (id <$> messages st) ->
  NoDup (id <$> messages (deliver events st)) /\
  (forall m : Message,
     id m ∈ id <$> messages (deliver events st) ->
     messages (onNewMessage_handler m (deliver events st))
     = messages (deliver events st)).
Proof.
  intros H. split; [now apply deliver_NoDup|].
  intros m Hm. rewrite messages_onNewMessage.
  destruct (opt_str_eqb _ _); [now apply appendIfNew_present | reflexivity].
Qed.

(** The echo of a message after the message itself, and a second copy
    later on: the timeline of conversation A holds each id once, and one
    more delivery of [m1000] changes nothing. *)
Lemma timeline_ids_stay_unique_witness :
  NoDup
    (id <$>
       messages
         (deliver [Sample.m1000; Sample.m1000; Sample.m1002; Sample.m1000]
            Sample.openA)) /\
  messages
    (onNewMessage_handler Sample.m1000
       (deliver [Sample.m1000; Sample.m1000; Sample.m1002; Sample.m1000]
          Sample.openA))
  = messages
      (deliver [Sample.m1000; Sample.m1000; Sample.m1002; Sample.m1000]
         Sample.openA).
Proof.
  destruct
    (timeline_ids_stay_unique
       [Sample.m1000; Sample.m1000; Sample.m1002; Sample.m1000] Sample.openA)
    as [Hnd Hsame].
  - simpl. constructor.
  - split; [exact Hnd|]. apply Hsame. vm_compute. left.
Defined.

(** The timeline that results holds the two distinct messages, once each. *)
Example deliver_with_echoes :
  messages
    (deliver [Sample.m1000; Sample.m1000; Sample.m1002; Sample.m1000]
       Sample.openA)
  = [Sample.m1000; Sample.m1002].
Proof. vm_compute. reflexivity. Qed.

(** *** Rendering order *)

Lemma flatten_snoc (groups : list DateGroup) (g : DateGroup) :
  flatten (groups ++ [g]) = flatten groups ++ group_messages g.
Proof.
  unfold flatten. rewrite List.map_app, concat_app. simpl.
  now rewrite app_nil_r.
Qed.

(** One round of the grouping loop puts the message at the very end. *)
Lemma flatten_push_grouped (groups : list DateGroup) (msg : Message) :
  flatten (push_grouped toDateString groups msg) = flatten groups ++ [msg].
Proof.
  unfold push_grouped.
  destruct groups as [|g0 gs] using rev_ind; [reflexivity|].
  rewrite last_snoc, removelast_last.
  destruct (str_eqb _ _); rewrite !flatten_snoc; simpl;
    now rewrite <- ?app_assoc.
Qed.

Lemma flatten_foldl_push (msgs : list Message) (groups : list DateGroup) :
  flatten (foldl (push_grouped toDateString) groups msgs)
  = flatten groups ++ msgs.
Proof.
  revert groups. induction msgs as [|m msgs IH]; intros groups; simpl.
  - now rewrite app_nil_r.
  - now rewrite IH, flatten_push_grouped, <- app_assoc.
Qed.

(** Grouping by date neither reorders nor drops: the bubbles come out in
    the order of the [messages] array. *)
Lemma rendered_is_messages (st : ChatState) :
  rendered_timeline toDateString st
  = if loadingMsgs st then [] else messages st.
Proof.
  unfold rendered_timeline, groupedMessages.
  destruct (loadingMsgs st); [reflexivity|].
  apply (flatten_foldl_push (messages st) []).
Qed.

Lemma loadingMsgs_deliver (events : list Message) (st : ChatState) :
  loadingMsgs (deliver events st) = loadingMsgs st.
Proof.
  unfold deliver. revert st.
  induction events as [|m events IH]; intros st; simpl; [reflexivity|].
  now rewrite IH, loadingMsgs_onNewMessage.
Qed.

(** Events only ever add at the end, and in the order they come in. *)
Lemma deliver_appends (events : list Message) (st : ChatState) :
  exists rest,
    messages (deliver events st) = messages st ++ rest /\
    sublist rest events.
Proof.
  unfold deliver. revert st.
  induction events as [|m events IH]; intros st; simpl.
  - exists []. split; [now rewrite app_nil_r | constructor].
  - destruct (IH (onNewMessage_handler m st)) as (rest & -> & Hsub).
    rewrite messages_onNewMessage. unfold appendIfNew.
    destruct (opt_str_eqb _ _);
      [destruct (has_message (messages st) m)|].
    + exists rest. split; [reflexivity | now apply sublist_cons].
    + exists (m :: rest). split; [now rewrite <- app_assoc|].
      now apply sublist_skip.
    + exists rest. split; [reflexivity | now apply sublist_cons].
Qed.

(** C2, as the code has it.  The rendered timeline is in arrival order: a
    [new_message] event of the active conversation whose id is new comes
    out last, after everything already shown and whatever its [created_at],
    and any other event leaves the rendered timeline as it is; so after any
    sequence of events the rendered timeline is the one before, followed by
    some of the events in the order of their arrival. *)
Theorem rendered_order_is_arrival_order
    (m : Message) (events : list Message) (st : ChatState) :
  rendered_timeline toDateString (onNewMessage_handler m st)
  = (if loadingMsgs st then []
     else if opt_str_eqb (conversation_id m) (activeConvId st)
             && negb (has_message (messages st) m)
          then rendered_timeline toDateString st ++ [m]
          else rendered_timeline toDateString st) /\
  exists rest,
    rendered_timeline toDateString (deliver events st)
    = rendered_timeline toDateString st ++ rest /\
    sublist rest events.
Proof.
  split.
  - rewrite !rendered_is_messages, loadingMsgs_onNewMessage,
      messages_onNewMessage.
    destruct (loadingMsgs st); [reflexivity|].
    unfold appendIfNew.
    destruct (opt_str_eqb _ _); [|reflexivity].
    now destruct (has_message (messages st) m).
  - rewrite !rendered_is_messages, loadingMsgs_deliver.
    destruct (loadingMsgs st).
    + exists []. split; [reflexivity | apply sublist_nil_l].
    + apply deliver_appends.
Qed.

(** *** A load that resolves after the conversation was switched *)


End Timeline.

(** C2, the claim at its own scenario.  The messages stamped 10:00 and
    10:02 are shown and the one stamped 10:01 arrives last: it is rendered
    last, so the order is 10:00, 10:02, 10:01 and not by time stamp. *)
Lemma out_of_order_arrival_not_sorted :
  List.map created_at
    (ChatPage.rendered_timeline Sample.utc_day
       (ChatPage.deliver [Sample.m1000; Sample.m1002; Sample.m1001]
          Sample.openA))
  = [36000000; 36120000; 36060000] /\
  ~ Sorted Z.le
      (List.map created_at
         (ChatPage.rendered_timeline Sample.utc_day
            (ChatPage.deliver [Sample.m1000; Sample.m1002; Sample.m1001]
               Sample.openA))).
Proof.
  assert (E : List.map created_at
    (ChatPage.rendered_timeline Sample.utc_day
       (ChatPage.deliver [Sample.m1000; Sample.m1002; Sample.m1001]
          Sample.openA)) = [36000000; 36120000; 36060000])
    by (vm_compute; reflexivity).
  split; [exact E|]. rewrite E. intros H.
  apply Sorted_inv in H as [H _]. apply Sorted_inv in H as [_ H].
  apply HdRel_inv in H. lia.
Qed.


(** ** Typing indicators *)

Section Typing.
Import ChatPage.

Variable currentUserId : jsstring.

Lemma opt_str_eqb_decide (a : jsstring) (b : option jsstring) :
  opt_str_eqb a b = bool_decide (b = Some a).
Proof. unfold opt_str_eqb. apply bool_decide_ext. split; congruence. Qed.

Lemma typingUsers_onTyping (data : TypingEvent) (st : ChatState) :
  typingUsers (onTyping_handler currentUserId data st)
  = if decide (activeConvId st = Some (ev_conversationId data))
    then if decide (ev_userId data = currentUserId)
         then typingUsers st
         else typingUsers st ∪ {[ev_userId data]}
    else typingUsers st.
Proof.
  unfold onTyping_handler, str_eqb. rewrite opt_str_eqb_decide.
  destruct (decide (activeConvId st = Some (ev_conversationId data)))
    as [Ha|Ha].
  - rewrite (bool_decide_eq_true_2 _ Ha).
    destruct (decide (ev_userId data = currentUserId)) as [Hu|Hu].
    + now rewrite (bool_decide_eq_true_2 _ Hu).
    + now rewrite (bool_decide_eq_false_2 _ Hu).
  - now rewrite (bool_decide_eq_false_2 _ Ha).
Qed.

Lemma typingUsers_onStopTyping (data : TypingEvent) (st : ChatState) :
  typingUsers (onStopTyping_handler data st)
  = if decide (activeConvId st = Some (ev_conversationId data))
    then typingUsers st ∖ {[ev_userId data]}
    else typingUsers st.
Proof.
  unfold onStopTyping_handler. rewrite opt_str_eqb_decide.
  destruct (decide (activeConvId st = Some (ev_conversationId data)))
    as [Ha|Ha].
  - now rewrite (bool_decide_eq_true_2 _ Ha).
  - now rewrite (bool_decide_eq_false_2 _ Ha).
Qed.

(** C8, as the code has it.  A [user_typing] event changes the typing set
    only if it is for the active conversation and comes from another user
    than the current one, and then it adds its user; a [user_stop_typing]
    event for the active conversation removes its user; every event for
    another conversation leaves the set as it is. *)
Theorem typing_set_follows_active_conversation
    (data : TypingEvent) (st : ChatState) :
  typingUsers (onTyping_handler currentUserId data st)
  = (if decide (activeConvId st = Some (ev_conversationId data))
     then if decide (ev_userId data = currentUserId)
          then typingUsers st
          else typingUsers st ∪ {[ev_userId data]}
     else typingUsers st) /\
  typingUsers (onStopTyping_handler data st)
  = (if decide (activeConvId st = Some (ev_conversationId data))
     then typingUsers st ∖ {[ev_userId data]}
     else typingUsers st).
Proof.
  split; [apply typingUsers_onTyping | apply typingUsers_onStopTyping].
Qed.

(** The membership reading: after a start event of another user in the
    active conversation that user is in the set, after a stop event it is
    not, and two start events in a row are one entry. *)
Lemma typing_membership (data : TypingEvent) (st : ChatState) :
  activeConvId st = Some (ev_conversationId data) ->
  ev_userId data <> currentUserId ->
  (ev_userId data ∈ typingUsers (onTyping_handler currentUserId data st)) /\
  (ev_userId data ∉ typingUsers (onStopTyping_handler data st)) /\
  typingUsers
    (onTyping_handler currentUserId data
       (onTyping_handler currentUserId data st))
  = typingUsers (onTyping_handler currentUserId data st).
Proof.
  intros Ha Hu.
  assert (Ha' : activeConvId (onTyping_handler currentUserId data st)
                = Some (ev_conversationId data)).
  { unfold onTyping_handler. now destruct (_ && _). }
  rewrite (typingUsers_onTyping data (onTyping_handler currentUserId data st)).
  rewrite typingUsers_onTyping, typingUsers_onStopTyping.
  repeat case_decide; try congruence.
  split; [|split].
  - apply elem_of_union_r, elem_of_singleton_2. reflexivity.
  - intros [_ Hn]%elem_of_difference. apply Hn, elem_of_singleton_2.
    reflexivity.
  - rewrite <- (assoc_L (∪)). now rewrite (idemp_L (∪)).
Qed.

End Typing.

(** C8, the claim at an event of the current user.  The event is for the
    active conversation, and yet its user is not added to the typing set. *)
Lemma own_typing_event_not_added :
  ChatPage.activeConvId Sample.openA = Some (js "A") /\
  (js "u-me" ∉
     ChatPage.typingUsers
       (ChatPage.onTyping_handler (js "u-me")
          {| ChatPage.ev_conversationId := js "A";
             ChatPage.ev_userId := js "u-me" |}
          Sample.openA)).
Proof.
  split; [reflexivity|].
  rewrite typingUsers_onTyping.
  rewrite (decide_True (P := ChatPage.activeConvId Sample.openA = _))
    by exact eq_refl.
  rewrite (decide_True (P := ChatPage.ev_userId _ = _)) by exact eq_refl.
  apply not_elem_of_empty.
Qed.

(** ** The pinned message *)

Section Pin.
Import ChatPage.

Lemma find_map_fixed_test {A} (p : A -> bool) (f : A -> A) (l : list A) :
  (forall x, p (f x) = p x) ->
  List.find p (List.map f l) = f <$> List.find p l.
Proof.
  intros Hp. induction l as [|x l IH]; simpl; [reflexivity|].
  rewrite Hp. now destruct (p x).
Qed.

Lemma activeConv_Some (st : ChatState) (c : Conversation) :
  activeConv st = Some c -> activeConvId st = Some (conv_id c).
Proof.
  unfold activeConv, opt_str_eqb. intros H.
  apply find_some in H as [_ H]. now apply bool_decide_eq_true in H.
Qed.

Lemma isCurrentlyPinned_decide (c : Conversation) (message : Message) :
  match pinned_message c with
  | Some p => str_eqb (id p) (id message)
  | None => false
  end = bool_decide (pins c message).
Proof.
  destruct (decide (pins c message)) as [H|H].
  - rewrite (bool_decide_eq_true_2 _ H). unfold pins in H.
    destruct (pinned_message c) as [p|]; [|discriminate].
    apply bool_decide_eq_true_2. now injection H.
  - rewrite (bool_decide_eq_false_2 _ H). unfold pins in H.
    destruct (pinned_message c) as [p|]; [|reflexivity].
    apply bool_decide_eq_false_2. intros E. apply H. simpl. now rewrite E.
Qed.

(** A confirmed use of the pin button on the active conversation [c]. *)
Lemma toggle_pin_confirmed (message : Message) (st : ChatState)
    (c : Conversation) :
  activeConv st = Some c -> truthy (conv_id c) = true ->
  activeConv (toggle_pin message (Resolved tt) st)
  = Some (set_pinned
            (if decide (pins c message) then None else Some message) c).
Proof.
  intros Hc Ht. pose proof (activeConv_Some _ _ Hc) as Ha.
  unfold toggle_pin, handleToggleGlobalPin. rewrite Ha, Ht, Hc.
  cbn [mbind option_bind]. rewrite isCurrentlyPinned_decide.
  unfold handleToggleGlobalPin_settled, activeConv.
  cbn [conversations activeConvId setConversations pin_conv
       isCurrentlyPinned pin_message].
  rewrite find_map_fixed_test.
  - fold (activeConv st). rewrite Hc. cbn [fmap option_fmap option_map].
    unfold str_eqb. rewrite bool_decide_eq_true_2 by reflexivity.
    now destruct (decide (pins c message)) as [H|H];
      [rewrite (bool_decide_eq_true_2 _ H)
      |rewrite (bool_decide_eq_false_2 _ H)].
  - intros x. now destruct (str_eqb (conv_id x) (conv_id c)).
Qed.

(** C6, as the code has it.  The button toggles.  A confirmed use on
    message [message] empties the slot of the active conversation if it held
    that message and puts [message] into it otherwise, whatever other
    message it held; so a second use right after the first one undoes it:
    pinning twice from a slot that did not hold the message leaves the slot
    empty.  A refused request changes nothing.  The slot is one optional
    message at all times. *)
Theorem pin_button_toggles_slot (message : Message) (st : ChatState)
    (c : Conversation) :
  activeConv st = Some c -> truthy (conv_id c) = true ->
  pinned_slot (toggle_pin message (Resolved tt) st)
  = (if decide (pins c message) then None else Some message) /\
  pinned_slot
    (toggle_pin message (Resolved tt) (toggle_pin message (Resolved tt) st))
  = (if decide (pins c message) then Some message else None) /\
  (forall reason, toggle_pin message (Rejected reason) st = st).
Proof.
  intros Hc Ht.
  pose proof (toggle_pin_confirmed message st c Hc Ht) as H1.
  pose proof (toggle_pin_confirmed message _ _ H1 Ht) as H2.
  unfold pinned_slot. rewrite H2, H1. cbn [mbind option_bind pinned_message
    set_pinned].
  split; [reflexivity|]. split.
  - unfold pins. cbn [pinned_message set_pinned].
    destruct (decide (id <$> pinned_message c = Some (id message)));
      cbn [fmap option_fmap option_map].
    + now rewrite decide_False by discriminate.
    + now rewrite decide_True by reflexivity.
  - intros reason. unfold toggle_pin.
    now destruct (handleToggleGlobalPin message st).
Qed.

(** Conversation A has nothing pinned: the first use pins [m1000], the
    second one on the same message unpins it, and a use on [m1002] after
    the first one replaces [m1000]. *)
Lemma pin_button_toggles_slot_witness :
  pinned_slot (toggle_pin Sample.m1000 (Resolved tt) Sample.openA)
  = Some Sample.m1000 /\
  pinned_slot
    (toggle_pin Sample.m1000 (Resolved tt)
       (toggle_pin Sample.m1000 (Resolved tt) Sample.openA))
  = None.
Proof.
  destruct (pin_button_toggles_slot Sample.m1000 Sample.openA Sample.convA)
    as (H1 & H2 & _).
  - reflexivity.
  - reflexivity.
  - rewrite H1, H2. unfold pins. simpl. split; reflexivity.
Defined.

Example pin_other_message_replaces :
  pinned_slot
    (toggle_pin Sample.m1002 (Resolved tt)
       (toggle_pin Sample.m1000 (Resolved tt) Sample.openA))
  = Some Sample.m1002.
Proof. vm_compute. reflexivity. Qed.

End Pin.

(** C6, the claim at a conversation with nothing pinned.  The first use of
    the button on [m1000] pins it; the second use, with no unpin in between,
    leaves the slot empty and not set to [m1000]. *)
Lemma pin_twice_unpins :
  ChatPage.pinned_slot
    (ChatPage.toggle_pin Sample.m1000 (Resolved tt) Sample.openA)
  = Some Sample.m1000 /\
  ChatPage.pinned_slot
    (ChatPage.toggle_pin Sample.m1000 (Resolved tt)
       (ChatPage.toggle_pin Sample.m1000 (Resolved tt) Sample.openA))
  = None.
Proof. split; vm_compute; reflexivity. Qed.

(** ** String primitives *)

Section Strings.

Lemma slice_prefix (s : jsstring) (i : Z) :
  0 <= i -> slice s 0 (Some i) = take (Z.to_nat i) s.
Proof.
  intros Hi. unfold slice, rel_index.
  rewrite (proj2 (Z.ltb_ge 0 0)) by lia.
  rewrite (proj2 (Z.ltb_ge i 0)) by lia.
  replace (Z.to_nat (Z.min 0 (Z.of_nat (length s)))) with 0%nat by lia.
  rewrite drop_0.
  destruct (Z.le_ge_cases i (Z.of_nat (length s))).
  - f_equal. lia.
  - rewrite !take_ge by lia. reflexivity.
Qed.

Lemma slice_suffix (s : jsstring) (i : Z) :
  0 <= i -> slice s i None = drop (Z.to_nat i) s.
Proof.
  intros Hi. unfold slice, rel_index.
  rewrite (proj2 (Z.ltb_ge i 0)) by lia.
  destruct (Z.le_ge_cases i (Z.of_nat (length s))).
  - replace (Z.min i (Z.of_nat (length s))) with i by lia.
    apply take_ge. rewrite length_drop. lia.
  - rewrite (drop_ge s (Z.to_nat i)) by lia.
    replace (Z.min i (Z.of_nat (length s))) with (Z.of_nat (length s)) by lia.
    now rewrite Z.sub_diag.
Qed.

Lemma split_ws_length (s : jsstring) :
  length (split_ws s) = S (length (List.filter is_space s)).
Proof.
  induction s as [|c s IH]; simpl; [reflexivity|].
  destruct (is_space c); simpl; [now rewrite IH|].
  destruct (split_ws s); simpl in *; congruence.
Qed.

Lemma split_ws_no_space (w : jsstring) :
  forallb (fun c => negb (is_space c)) w = true -> split_ws w = [w].
Proof.
  induction w as [|c w IH]; simpl; [reflexivity|].
  intros [Hc Hw]%andb_true_iff. apply negb_true_iff in Hc.
  now rewrite Hc, (IH Hw).
Qed.

(** The word under the cursor is what follows the last white space. *)
Lemma last_word_after_space (pre w : jsstring) (sp : N) :
  is_space sp = true ->
  forallb (fun c => negb (is_space c)) w = true ->
  last_word (split_ws (pre ++ sp :: w)) = w.
Proof.
  intros Hsp Hw. unfold last_word.
  induction pre as [|c pre IH]; simpl.
  - now rewrite Hsp, (split_ws_no_space w Hw).
  - pose proof (split_ws_length (pre ++ sp :: w)) as Hlen.
    rewrite List.filter_app in Hlen. simpl in Hlen. rewrite Hsp in Hlen.
    rewrite length_app in Hlen. simpl in Hlen.
    destruct (split_ws (pre ++ sp :: w)) as [|w0 [|w1 ws]];
      simpl in Hlen; try lia.
    now destruct (is_space c).
Qed.

End Strings.

(** ** The composer: mentions *)

Section Mentions.
Import ChatPage.

Variable toLowerCase : jsstring -> jsstring.

Lemma messageInput_handleInputChange val sel st :
  messageInput (fst (handleInputChange toLowerCase val sel st)) = val.
Proof.
  unfold handleInputChange.
  destruct (activeConvId st) as [conv|];
    [destruct (truthy conv); [destruct (truthy (trim val))|]|];
    cbn [fst]; now destruct (startsWith _ _).
Qed.

Lemma mentionQuery_handleInputChange val sel st :
  mentionQuery (fst (handleInputChange toLowerCase val sel st))
  = let cursorPosition := default 0 sel in
    let currentWord :=
      last_word (split_ws (slice val 0 (Some cursorPosition))) in
    if startsWith currentWord (js "@") then
      Some {| mq_active := true;
              mq_text := toLowerCase (slice currentWord 1 None);
              mq_index := cursorPosition - Z.of_nat (length currentWord) |}
    else None.
Proof.
  unfold handleInputChange.
  destruct (activeConvId st) as [conv|];
    [destruct (truthy conv); [destruct (truthy (trim val))|]|];
    cbn [fst]; cbv zeta; now destruct (startsWith _ _).
Qed.

(** The word under the cursor when the cursor stands right behind a token
    ["@" ++ partial] that begins the text or follows white space. *)
Lemma current_word_is_token (pre partial post : jsstring) :
  (pre = [] \/ exists pre' sp, pre = pre' ++ [sp] /\ is_space sp = true) ->
  forallb (fun c => negb (is_space c)) partial = true ->
  last_word
    (split_ws
       (slice (pre ++ js "@" ++ partial ++ post) 0
          (Some (Z.of_nat (length pre + 1 + length partial)))))
  = js "@" ++ partial.
Proof.
  intros Hpre Hpartial.
  rewrite slice_prefix by lia. rewrite Nat2Z.id.
  replace (pre ++ js "@" ++ partial ++ post)
    with ((pre ++ js "@" ++ partial) ++ post)
    by now rewrite <- !app_assoc.
  rewrite take_app_length' by (rewrite !length_app; simpl; lia).
  assert (Htok : forallb (fun c => negb (is_space c)) (js "@" ++ partial)
                 = true) by (simpl; exact Hpartial).
  destruct Hpre as [->|(pre' & sp & -> & Hsp)].
  - rewrite app_nil_l. unfold last_word.
    now rewrite (split_ws_no_space _ Htok).
  - rewrite <- app_assoc.
    exact (last_word_after_space pre' (js "@" ++ partial) sp Hsp Htok).
Qed.

(** What a selection computes.  After an input change with the cursor
    right behind the token ["@" ++ partial], the start of the token is what
    the mention query captures.  Selecting [username] then gives the text
    before that captured start, then ["@" ++ username ++ " "], then the
    text after the cursor position read at selection time ([later]),
    wherever that cursor is.  With the cursor where it was at the input
    change, this replaces the token and nothing else. *)
Theorem mention_splice_ends_at_current_cursor
    (pre partial post username : jsstring) (later : Z) (st : ChatState) :
  (pre = [] \/ exists pre' sp, pre = pre' ++ [sp] /\ is_space sp = true) ->
  forallb (fun c => negb (is_space c)) partial = true ->
  0 <= later ->
  mentionQuery
    (fst (handleInputChange toLowerCase (pre ++ js "@" ++ partial ++ post)
            (Some (Z.of_nat (length pre + 1 + length partial))) st))
  = Some {| mq_active := true; mq_text := toLowerCase partial;
            mq_index := Z.of_nat (length pre) |} /\
  messageInput
    (handleMentionSelect username (Some later)
       (fst (handleInputChange toLowerCase (pre ++ js "@" ++ partial ++ post)
               (Some (Z.of_nat (length pre + 1 + length partial))) st)))
  = pre ++ js "@" ++ username ++ js " "
    ++ drop (Z.to_nat later) (pre ++ js "@" ++ partial ++ post) /\
  messageInput
    (handleMentionSelect username
       (Some (Z.of_nat (length pre + 1 + length partial)))
       (fst (handleInputChange toLowerCase (pre ++ js "@" ++ partial ++ post)
               (Some (Z.of_nat (length pre + 1 + length partial))) st)))
  = pre ++ js "@" ++ username ++ js " " ++ post.
Proof.
  intros Hpre Hpartial Hlater.
  assert (Hq : mentionQuery
    (fst (handleInputChange toLowerCase (pre ++ js "@" ++ partial ++ post)
            (Some (Z.of_nat (length pre + 1 + length partial))) st))
    = Some {| mq_active := true; mq_text := toLowerCase partial;
              mq_index := Z.of_nat (length pre) |}).
  { rewrite mentionQuery_handleInputChange. cbv zeta.
    cbn [from_option Datatypes.id].
    rewrite (current_word_is_token pre partial post Hpre Hpartial).
    change (startsWith (js "@" ++ partial) (js "@")) with true.
    cbv iota. rewrite slice_suffix by lia.
    change (drop (Z.to_nat 1) (js "@" ++ partial)) with partial.
    do 2 f_equal. change (length (js "@" ++ partial)) with (S (length partial)).
    lia. }
  assert (Hsel : forall cur, 0 <= cur ->
    messageInput
      (handleMentionSelect username (Some cur)
         (fst (handleInputChange toLowerCase
                 (pre ++ js "@" ++ partial ++ post)
                 (Some (Z.of_nat (length pre + 1 + length partial))) st)))
    = pre ++ js "@" ++ username ++ js " "
      ++ drop (Z.to_nat cur) (pre ++ js "@" ++ partial ++ post)).
  { intros cur Hcur. unfold handleMentionSelect. rewrite Hq.
    cbn [messageInput setMentionQuery setMessageInput mq_index
         from_option Datatypes.id].
    rewrite messageInput_handleInputChange.
    rewrite slice_prefix by lia. rewrite slice_suffix by lia.
    rewrite Nat2Z.id. now rewrite take_app_length. }
  split; [exact Hq|]. split; [now apply Hsel|].
  rewrite Hsel by lia. rewrite Nat2Z.id.
  do 4 f_equal.
  replace (pre ++ js "@" ++ partial ++ post)
    with ((pre ++ js "@" ++ partial) ++ post)
    by now rewrite <- !app_assoc.
  apply drop_app_length'. rewrite !length_app. simpl. lia.
Qed.

End Mentions.

(** The text is "hi @am there" with the cursor behind "@am".  Selecting
    amir with the cursor still there gives "hi @amir  there"; selecting it
    after the cursor was put at the end gives "hi @amir ". *)
Lemma mention_splice_ends_at_current_cursor_witness :
  ChatPage.messageInput
    (ChatPage.handleMentionSelect (js "amir") (Some 6)
       (fst (ChatPage.handleInputChange Sample.ascii_toLowerCase
               (js "hi @am there") (Some 6) Sample.openA)))
  = js "hi @amir  there" /\
  ChatPage.messageInput
    (ChatPage.handleMentionSelect (js "amir") (Some 12)
       (fst (ChatPage.handleInputChange Sample.ascii_toLowerCase
               (js "hi @am there") (Some 6) Sample.openA)))
  = js "hi @amir ".
Proof.
  destruct (mention_splice_ends_at_current_cursor Sample.ascii_toLowerCase
              (js "hi ") (js "am") (js " there") (js "amir") 12 Sample.openA)
    as (_ & Hlate & Hsame).
  - right. exists (js "hi"), 32%N. split; reflexivity.
  - reflexivity.
  - lia.
  - split; [exact Hsame | exact Hlate].
Defined.

(** A cursor that has moved to the end.  "@am" was typed between
    "hi " and " there"; the cursor is then put at the end of the text and
    amir is selected.  The token "@am" alone should be replaced, giving
    "hi @amir  there"; the code cuts at the cursor of that moment and gives
    "hi @amir ", dropping " there". *)
Lemma mention_select_uses_current_cursor :
  ChatPage.mentionQuery
    (fst (ChatPage.handleInputChange Sample.ascii_toLowerCase
            (js "hi @am there") (Some 6) Sample.openA))
  = Some {| ChatPage.mq_active := true; ChatPage.mq_text := js "am";
            ChatPage.mq_index := 3 |} /\
  ChatPage.messageInput
    (ChatPage.handleMentionSelect (js "amir") (Some 12)
       (fst (ChatPage.handleInputChange Sample.ascii_toLowerCase
               (js "hi @am there") (Some 6) Sample.openA)))
  = js "hi @amir " /\
  ChatPage.messageInput
    (ChatPage.handleMentionSelect (js "amir") (Some 12)
       (fst (ChatPage.handleInputChange Sample.ascii_toLowerCase
               (js "hi @am there") (Some 6) Sample.openA)))
  <> js "hi @amir  there".
Proof.
  split; [vm_compute; reflexivity|].
  split; [vm_compute; reflexivity|].
  vm_compute. discriminate.
Qed.

(** C5 at a caret that has moved since the mention list opened.  "@am" is
    typed between "hi " and " there": the query captures the offset 3 of
    the token.  The caret is then moved without typing and amir is selected.
    Replacing the token "@am" alone would give "hi @amir  there" wherever
    the caret is.  The code takes the text after the caret of that moment
    instead of the text after the token: with the caret at the end it gives
    "hi @amir " and loses " there", with the caret after the first letter
    it gives "hi @amir i @am there" and keeps the old token as well.  Only
    with the caret still right behind the token is the result the expected
    one. *)
Lemma mention_select_cuts_at_live_caret :
  let opened :=
    fst (ChatPage.handleInputChange Sample.ascii_toLowerCase
           (js "hi @am there") (Some 6) Sample.openA) in
  ChatPage.mentionQuery opened
  = Some {| ChatPage.mq_active := true; ChatPage.mq_text := js "am";
            ChatPage.mq_index := 3 |} /\
  List.map member_username
    (ChatPage.mentionableMembers (js "u-me") Sample.ascii_toLowerCase opened)
  = [js "amy"; js "amir"] /\
  ChatPage.messageInput
    (ChatPage.handleMentionSelect (js "amir") (Some 6) opened)
  = js "hi @amir  there" /\
  ChatPage.messageInput
    (ChatPage.handleMentionSelect (js "amir") (Some 12) opened)
  = js "hi @amir " /\
  ChatPage.messageInput
    (ChatPage.handleMentionSelect (js "amir") (Some 1) opened)
  = js "hi @amir i @am there".
Proof. cbv zeta. repeat split; vm_compute; reflexivity. Qed.

(** ** The composer: sending a text message *)

Section Sending.
Import ChatPage.

(** The optimistic part: input and reply target are cleared, and the
    request goes out, before anything comes back. *)
Lemma handleSend_text (st : ChatState) (convId : jsstring) :
  sendable_text st convId ->
  handleSend st
  = (setSending true (setReplyingTo None (setMessageInput [] st)),
     [call_sendMessage convId (trim (messageInput st))
        (id <$> replyingTo st)]).
Proof.
  intros [Ha Hc Ht Hm Hs Hu]. unfold handleSend.
  rewrite Ha, Hc, Ht, Hm, Hs, Hu. reflexivity.
Qed.

(** The [catch] branch would put the text back, were it ever entered. *)
Lemma handleSend_settled_rejected convId content reason st :
  messageInput (fst (handleSend_settled convId content (Rejected reason) st))
  = content.
Proof. reflexivity. Qed.

(** It is not: [sendMessage] settles by resolving, so [handleSend] ends in
    its [try] branch whatever the acknowledgment says, and the input stays
    empty. *)
Lemma send_text_never_restores (st : ChatState) (convId : jsstring)
    (sock : option Socket) (response : option Ack) :
  sendable_text st convId ->
  messageInput (fst (send_text sock response st)) = [] /\
  replyingTo (fst (send_text sock response st)) = None /\
  sending (fst (send_text sock response st)) = false /\
  snd (send_text sock response st) = [emitTypingStop convId].
Proof.
  intros H. unfold send_text. rewrite (handleSend_text st convId H).
  unfold sendMessage_settled, sendMessage, on_ack.
  destruct sock as [s|], response as [[[] m]|]; cbn; auto.
Qed.

End Sending.

(** C4 at a send that fails.  The draft "  hello " is sent as a reply in
    conversation A.  At once the input and the reply target are cleared and
    the request carries the trimmed text.  The acknowledgment then reports
    failure, or there is no socket at all: in both cases the input is still
    empty when [handleSend] is done, the draft is not put back. *)
Lemma failed_send_input_not_restored :
  let draft :=
    ChatPage.setReplyingTo (Some Sample.m1000)
      (ChatPage.setMessageInput (js "  hello ") Sample.openA) in
  let sock := {| auth_token := js "t"; status_listeners := ∅ |} in
  let refused := {| success := false; message := None |} in
  ChatPage.messageInput (fst (ChatPage.handleSend draft)) = [] /\
  ChatPage.replyingTo (fst (ChatPage.handleSend draft)) = None /\
  snd (ChatPage.handleSend draft)
  = [ChatPage.call_sendMessage (js "A") (js "hello") (Some (js "m-1000"))] /\
  ChatPage.messageInput
    (fst (ChatPage.send_text (Some sock) (Some refused) draft)) = [] /\
  ChatPage.messageInput (fst (ChatPage.send_text None None draft)) = [] /\
  ChatPage.messageInput
    (fst (ChatPage.send_text (Some sock) (Some refused) draft))
  <> js "hello".
Proof.
  cbv zeta. repeat split; try (vm_compute; reflexivity).
  vm_compute. discriminate.
Qed.

(** ** The composer: attachments *)

Section Attachments.
Import ChatPage.

Lemma handleFileSelect_cases (f : File) (st : ChatState) :
  let st1 := setShowAttachMenu false (setUploadError None st) in
  handleFileSelect (Some f) st
  = if (MAX_FILE_SIZE <? file_size f)%N then
      (setUploadError
         (Some (js "File too large (" ++ mebibytes_toFixed1 (file_size f)
                ++ js "MB). Max 2MB.")) st1, [])
    else if allowed_type f then (st1, [call_readAsDataURL f])
    else (setUploadError (Some (js "Only images and videos are supported."))
            st1, []).
Proof.
  cbv zeta. unfold handleFileSelect, allowed_type.
  destruct (MAX_FILE_SIZE <? file_size f)%N; [reflexivity|].
  now destruct (startsWith (file_type f) (js "image/")),
    (startsWith (file_type f) (js "video/")).
Qed.

(** A file is staged only if it is at most 2 MiB and an image or a video:
    any other selection leaves the staged attachment as it was and starts
    no read. *)
Lemma staged_only_if_valid (f : File) (read : option jsstring)
    (st : ChatState) :
  mediaPreview (select_file f read st) <> mediaPreview st ->
  (file_size f <= MAX_FILE_SIZE)%N /\ allowed_type f = true.
Proof.
  unfold select_file. rewrite handleFileSelect_cases. cbv zeta.
  destruct (N.ltb_spec MAX_FILE_SIZE (file_size f)) as [Hbig|Hok].
  - intros H. now contradiction H.
  - destruct (allowed_type f); [now split|].
    intros H. now contradiction H.
Qed.

(** A valid file whose read succeeds is staged, with its type and name. *)
Lemma valid_file_staged (f : File) (data : jsstring) (st : ChatState) :
  (file_size f <= MAX_FILE_SIZE)%N -> allowed_type f = true ->
  mediaPreview (select_file f (Some data) st)
  = Some {| mp_type := file_type f; mp_data := data;
            mp_name := file_name f |}.
Proof.
  intros Hsize Hty. unfold select_file. rewrite handleFileSelect_cases.
  cbv zeta. rewrite (proj2 (N.ltb_ge _ _) Hsize), Hty. reflexivity.
Qed.

(** A file over the limit: nothing is read, nothing is staged, and the
    error text names the size. *)
Lemma oversized_rejected (f : File) (read : option jsstring)
    (st : ChatState) :
  (MAX_FILE_SIZE < file_size f)%N ->
  snd (handleFileSelect (Some f) st) = [] /\
  mediaPreview (select_file f read st) = mediaPreview st /\
  uploadError (select_file f read st)
  = Some (js "File too large (" ++ mebibytes_toFixed1 (file_size f)
          ++ js "MB). Max 2MB.").
Proof.
  intros Hbig. unfold select_file. rewrite handleFileSelect_cases.
  cbv zeta. rewrite (proj2 (N.ltb_lt _ _) Hbig). now repeat split.
Qed.

End Attachments.

(** C7 at the 3 MiB PNG, picked while nothing is staged.  The file is
    refused: no read is started, nothing is staged, and nothing of it can be
    sent (a send of the text typed next is a plain text message).  The error
    text "File too large (3.0MB). Max 2MB." is stored, but the page shows
    [uploadError] only inside the preview bar of a staged attachment, and
    there is none: the error is not displayed. *)
Lemma oversized_png_error_not_displayed :
  let picked :=
    ChatPage.handleFileSelect (Some Sample.png_3MiB) Sample.openA in
  snd picked = [] /\
  ChatPage.mediaPreview (fst picked) = None /\
  ChatPage.mediaPreview
    (ChatPage.select_file Sample.png_3MiB (Some (js "data:image/png;base64,"))
       Sample.openA) = None /\
  ChatPage.transmitted_media
    (snd (ChatPage.handleSend
            (ChatPage.setMessageInput (js "look") (fst picked)))) = [] /\
  ChatPage.uploadError (fst picked)
  = Some (js "File too large (3.0MB). Max 2MB.") /\
  ChatPage.rendered_uploadError (fst picked) = None.
Proof. cbv zeta. repeat split; vm_compute; reflexivity. Qed.

(** The same file picked while another attachment is staged: then the
    preview bar is there and the error is displayed. *)
Example oversized_png_error_displayed_beside_preview :
  ChatPage.rendered_uploadError
    (fst (ChatPage.handleFileSelect (Some Sample.png_3MiB)
            (ChatPage.setMediaPreview
               (Some {| ChatPage.mp_type := js "image/gif";
                        ChatPage.mp_data := js "data:image/gif;base64,";
                        ChatPage.mp_name := js "a.gif" |})
               Sample.openA)))
  = Some (js "File too large (3.0MB). Max 2MB.").
Proof. vm_compute. reflexivity. Qed.

(** * Further properties of the code *)

(** ** The socket and its consumers *)

Section SocketConsumers.
Import UseSocket.






End SocketConsumers.

(** ** The helpers of the sidebar *)

Section SidebarHelpers.

Variable toLocaleDateString : Z -> jsstring.
Variable toUpperCase : jsstring -> jsstring.

(** [timeAgo] read in milliseconds.  An instant in the future or less than
    a minute back is "now"; then come whole minutes up to the hour, whole
    hours up to the day, whole days up to the week, each the plain quotient
    of the distance, and from a week on the formatted date. *)
Theorem timeAgo_thresholds (now then_ : Z) :
  timeAgo toLocaleDateString now then_
  = if now - then_ <? 60000 then js "now"
    else if now - then_ <? 3600000
      then decimal (Z.to_N ((now - then_) / 60000)) ++ js "m"
    else if now - then_ <? 86400000
      then decimal (Z.to_N ((now - then_) / 3600000)) ++ js "h"
    else if now - then_ <? 604800000
      then decimal (Z.to_N ((now - then_) / 86400000)) ++ js "d"
    else toLocaleDateString then_.
Proof.
  unfold timeAgo. cbv zeta.
  destruct (Z.ltb_spec (now - then_) 60000) as [H1|H1].
  { destruct (Z.ltb_spec (Z.max 0 (now - then_) / 1000) 60) as [_|H];
      [reflexivity|].
    exfalso. revert H. apply Z.lt_nge.
    apply Z.div_lt_upper_bound; lia. }
  rewrite Z.max_r by lia.
  rewrite !Z.div_div by lia.
  change (1000 * 60 * 60 * 24) with 86400000.
  change (1000 * 60 * 60) with 3600000.
  change (1000 * 60) with 60000.
  destruct (Z.ltb_spec ((now - then_) / 1000) 60) as [H|_].
  { exfalso. revert H. apply Z.le_ngt. apply Z.div_le_lower_bound; lia. }
  destruct (Z.ltb_spec (now - then_) 3600000) as [H2|H2].
  { destruct (Z.ltb_spec ((now - then_) / 60000) 60) as [_|H];
      [reflexivity|].
    exfalso. revert H. apply Z.lt_nge. apply Z.div_lt_upper_bound; lia. }
  destruct (Z.ltb_spec ((now - then_) / 60000) 60) as [H|_].
  { exfalso. revert H. apply Z.le_ngt. apply Z.div_le_lower_bound; lia. }
  destruct (Z.ltb_spec (now - then_) 86400000) as [H3|H3].
  { destruct (Z.ltb_spec ((now - then_) / 3600000) 24) as [_|H];
      [reflexivity|].
    exfalso. revert H. apply Z.lt_nge. apply Z.div_lt_upper_bound; lia. }
  destruct (Z.ltb_spec ((now - then_) / 3600000) 24) as [H|_].
  { exfalso. revert H. apply Z.le_ngt. apply Z.div_le_lower_bound; lia. }
  destruct (Z.ltb_spec (now - then_) 604800000) as [H4|H4].
  { destruct (Z.ltb_spec ((now - then_) / 86400000) 7) as [_|H];
      [reflexivity|].
    exfalso. revert H. apply Z.lt_nge. apply Z.div_lt_upper_bound; lia. }
  destruct (Z.ltb_spec ((now - then_) / 86400000) 7) as [H|_];
    [|reflexivity].
  exfalso. revert H. apply Z.le_ngt. apply Z.div_le_lower_bound; lia.
Qed.

Example timeAgo_ninety_minutes :
  timeAgo toLocaleDateString 5400000 0 = js "1h".
Proof. reflexivity. Qed.

Lemma or_else_truthy (a : option jsstring) (b : jsstring) :
  truthy b = true -> truthy (or_else a b) = true.
Proof.
  intros Hb. unfold or_else. destruct a as [s|]; [|exact Hb].
  now destruct (truthy s) eqn:Hs.
Qed.

Lemma other_member_not_self (conv : Conversation) (me : jsstring)
    (m : ConversationMember) :
  other_member conv me = Some m -> m ∈ members conv /\ member_id m <> me.
Proof.
  unfold other_member. intros H. apply find_some in H as [Hin Hne].
  split; [now apply list_elem_of_In|].
  apply negb_true_iff in Hne. unfold str_eqb in Hne.
  now apply bool_decide_eq_false in Hne.
Qed.

Lemma find_first {A} (p : A -> bool) (l : list A) :
  match List.find p l with
  | Some m =>
      exists before after,
        l = before ++ m :: after /\
        Forall (fun x => p x = false) before /\ p m = true
  | None => Forall (fun x => p x = false) l
  end.
Proof.
  induction l as [|x l IH]; simpl; [constructor|].
  destruct (p x) eqn:Hx.
  - exists [], l. now repeat split.
  - destruct (List.find p l) as [m|].
    + destruct IH as (before & after & -> & Hb & Hm).
      exists (x :: before), after. repeat split; [|exact Hm].
      now constructor.
    + now constructor.
Qed.

Lemma str_eqb_false (a b : jsstring) : negb (str_eqb a b) = true <-> a <> b.
Proof.
  unfold str_eqb. now rewrite negb_true_iff, bool_decide_eq_false.
Qed.

Lemma str_eqb_true (a b : jsstring) : negb (str_eqb a b) = false <-> a = b.
Proof.
  unfold str_eqb. now rewrite negb_false_iff, bool_decide_eq_true.
Qed.

(** The name and the avatar letter of a conversation, choice by choice.
    Neither is ever empty.  A group shows its own name if it has a
    non-empty one and "Group Chat" otherwise, and as letter the upper-cased
    first code unit of that name, or "#".  A direct conversation goes by
    the first member that is not the current user: it shows that member's
    name if it is not empty, else the member's username if that is not
    empty, else "Direct Message"; the letter is taken from the name, else
    from the username, else it is "U".  If every member is the current
    user, the fixed labels are shown. *)
Theorem conversation_label_never_empty (conv : Conversation)
    (me : jsstring) :
  truthy (getConversationName conv me) = true /\
  truthy (getConversationAvatar toUpperCase conv me) = true /\
  match conv_type conv with
  | group =>
      getConversationName conv me
      = match conv_name conv with
        | Some (c :: n) => c :: n
        | _ => js "Group Chat"
        end /\
      getConversationAvatar toUpperCase conv me
      = match conv_name conv with
        | Some (c :: _) =>
            if truthy (toUpperCase [c]) then toUpperCase [c] else js "#"
        | _ => js "#"
        end
  | dm =>
      (Forall (fun m => member_id m = me) (members conv) /\
       getConversationName conv me = js "Direct Message" /\
       getConversationAvatar toUpperCase conv me = js "U") \/
      (exists before other after,
         members conv = before ++ other :: after /\
         Forall (fun m => member_id m = me) before /\
         member_id other <> me /\
         getConversationName conv me
         = (if truthy (member_name other) then member_name other
            else if truthy (member_username other)
                 then member_username other
                 else js "Direct Message") /\
         getConversationAvatar toUpperCase conv me
         = (let from_username :=
              match member_username other with
              | u :: _ =>
                  if truthy (toUpperCase [u]) then toUpperCase [u]
                  else js "U"
              | [] => js "U"
              end in
            match member_name other with
            | c :: _ =>
                if truthy (toUpperCase [c]) then toUpperCase [c]
                else from_username
            | [] => from_username
            end))
  end.
Proof.
  unfold getConversationName, getConversationAvatar.
  split; [|split].
  - destruct (conv_type conv); repeat apply or_else_truthy; reflexivity.
  - destruct (conv_type conv); repeat apply or_else_truthy; reflexivity.
  - destruct (conv_type conv).
    + unfold or_else, initial_of.
      destruct (conv_name conv) as [[|c n]|]; now split.
    + unfold other_member.
      pose proof (find_first
                    (fun m => negb (str_eqb (member_id m) me))
                    (members conv)) as Hfind.
      destruct (List.find _ (members conv)) as [other|].
      * right. destruct Hfind as (before & after & Hl & Hb & Ho).
        exists before, other, after. split; [exact Hl|]. split.
        { eapply Forall_impl; [exact Hb|]. intros m Hm.
          now apply str_eqb_true. }
        split; [now apply str_eqb_false|].
        cbn [fmap option_fmap option_map or_else initial_of]. cbv zeta.
        split.
        { destruct (truthy (member_name other)); [reflexivity|].
          now destruct (truthy (member_username other)). }
        destruct (member_name other) as [|c n],
                 (member_username other) as [|u k]; reflexivity.
      * left. split; [|now split].
        eapply Forall_impl; [exact Hfind|]. intros m Hm.
        now apply str_eqb_true.
Qed.

(** Amy has no name on record, only a username: the direct conversation
    with her goes by the username, and by its upper-cased first letter. *)
Example dm_label_falls_through_to_username :
  getConversationName
    {| conv_id := js "B"; conv_type := dm; conv_name := None;
       team_id := None; conv_created_at := 0; member_count := 2;
       members :=
         [{| member_id := js "u-me"; member_name := js "Me";
             member_username := js "me"; member_email := js "" |};
          {| member_id := js "u-amy"; member_name := js "";
             member_username := js "amy"; member_email := js "" |}];
       last_message := None; last_message_at := None;
       pinned_message := None |} (js "u-me")
  = js "amy".
Proof. reflexivity. Qed.

End SidebarHelpers.

(** ** The conversation directory *)

Section Directory.
Import ChatPage.

Lemma setConversations_twice (f : list Conversation -> list Conversation)
    (st : ChatState) :
  f (f (conversations st)) = f (conversations st) ->
  setConversations f (setConversations f st) = setConversations f st.
Proof. intros H. unfold setConversations. cbn. now rewrite H. Qed.

Lemma known_conversation_spec (c : Conversation) (prev : list Conversation) :
  existsb (fun d => str_eqb (conv_id d) (conv_id c)) prev = true
  <-> conv_id c ∈ conv_id <$> prev.
Proof.
  unfold str_eqb. rewrite existsb_exists, list_elem_of_fmap. split.
  - intros (x & H1 & H2). exists x. apply bool_decide_eq_true in H2.
    split; [congruence | now apply list_elem_of_In].
  - intros (x & H1 & H2). exists x.
    split; [now apply list_elem_of_In | now apply bool_decide_eq_true].
Qed.

Lemma prependIfNew_twice (c : Conversation) (prev : list Conversation) :
  prependIfNew c (prependIfNew c prev) = prependIfNew c prev.
Proof.
  unfold prependIfNew.
  destruct (existsb _ prev) eqn:H.
  - now rewrite H.
  - cbn [existsb]. unfold str_eqb.
    rewrite (bool_decide_eq_true_2 (conv_id c = conv_id c) eq_refl).
    reflexivity.
Qed.

(** A [new_conversation] event puts an unknown conversation in front and
    leaves a known one where it is, so the ids of the directory stay
    pairwise distinct and a repeated event changes nothing more; the
    conversation is joined in either case. *)
Theorem new_conversation_idempotent (c : Conversation) (st : ChatState) :
  NoDup (conv_id <$> conversations st) ->
  NoDup (conv_id <$> conversations (fst (onNewConversation_handler c st))) /\
  conversations (fst (onNewConversation_handler c st))
  = (if decide (conv_id c ∈ conv_id <$> conversations st)
     then conversations st else c :: conversations st) /\
  fst (onNewConversation_handler c (fst (onNewConversation_handler c st)))
  = fst (onNewConversation_handler c st) /\
  snd (onNewConversation_handler c st) = [conv_id c].
Proof.
  intros Hnd. cbn [onNewConversation_handler fst snd].
  assert (Hcases : prependIfNew c (conversations st)
    = if decide (conv_id c ∈ conv_id <$> conversations st)
      then conversations st else c :: conversations st).
  { unfold prependIfNew.
    destruct (decide (conv_id c ∈ conv_id <$> conversations st)) as [H|H].
    - now rewrite (proj2 (known_conversation_spec c _) H).
    - destruct (existsb _ _) eqn:E; [|reflexivity].
      now apply known_conversation_spec in E. }
  repeat split.
  - cbn [conversations setConversations]. rewrite Hcases.
    destruct (decide _) as [H|H]; [exact Hnd|].
    rewrite fmap_cons. now apply NoDup_cons.
  - exact Hcases.
  - apply setConversations_twice, prependIfNew_twice.
Qed.

Lemma new_conversation_idempotent_witness :
  conversations
    (fst (onNewConversation_handler Sample.convA Sample.openA))
  = [Sample.convA] /\
  snd (onNewConversation_handler Sample.convA Sample.openA) = [js "A"].
Proof.
  destruct (new_conversation_idempotent Sample.convA Sample.openA)
    as (_ & H & _ & J).
  - apply NoDup_singleton.
  - split; [|exact J]. rewrite H. apply decide_True. simpl. left.
Defined.

(** *** Pin updates *)

Lemma conv_id_set_pinned p c : conv_id (set_pinned p c) = conv_id c.
Proof. reflexivity. Qed.

Lemma pinned_update_absorbs (d1 d2 : PinnedUpdate) (st : ChatState) :
  pu_conversationId d1 = pu_conversationId d2 ->
  onPinnedMessageUpdated_handler d2 (onPinnedMessageUpdated_handler d1 st)
  = onPinnedMessageUpdated_handler d2 st.
Proof.
  intros Hsame. unfold onPinnedMessageUpdated_handler.
  unfold setConversations. cbn. f_equal.
  rewrite List.map_map. apply List.map_ext. intros c.
  rewrite Hsame.
  destruct (str_eqb (conv_id c) (pu_conversationId d2)) eqn:E.
  - rewrite conv_id_set_pinned, E. reflexivity.
  - now rewrite E.
Qed.

(** Pin updates carry no sequence number: of two [pinned_message_updated]
    events for one conversation the later one decides, and the state is the
    one the later event alone would give.  No event adds, drops or moves a
    conversation. *)
Theorem pinned_update_last_wins (d1 d2 : PinnedUpdate) (st : ChatState) :
  pu_conversationId d1 = pu_conversationId d2 ->
  onPinnedMessageUpdated_handler d2 (onPinnedMessageUpdated_handler d1 st)
  = onPinnedMessageUpdated_handler d2 st /\
  conv_id <$> conversations (onPinnedMessageUpdated_handler d1 st)
  = conv_id <$> conversations st.
Proof.
  intros Hsame. split; [now apply pinned_update_absorbs|].
  unfold onPinnedMessageUpdated_handler.
  cbn [conversations setConversations].
  induction (conversations st) as [|c l IH]; [reflexivity|].
  cbn [List.map]. rewrite !fmap_cons, IH. f_equal.
  now destruct (str_eqb _ _).
Qed.

Lemma pinned_update_last_wins_witness :
  pinned_slot
    (onPinnedMessageUpdated_handler
       {| pu_conversationId := js "A"; pu_pinnedMessage := None |}
       (onPinnedMessageUpdated_handler
          {| pu_conversationId := js "A";
             pu_pinnedMessage := Some Sample.m1000 |} Sample.openA))
  = None.
Proof.
  destruct (pinned_update_last_wins
              {| pu_conversationId := js "A";
                 pu_pinnedMessage := Some Sample.m1000 |}
              {| pu_conversationId := js "A"; pu_pinnedMessage := None |}
              Sample.openA) as [H _].
  - reflexivity.
  - rewrite H. reflexivity.
Defined.

(** The optimistic update of a confirmed pin request and the broadcast of
    the same change agree: the broadcast alone gives the state the
    optimistic update gives, and coming after it, it changes nothing. *)
Theorem pin_echo_agrees_with_optimistic_update
    (i : PinIntent) (st : ChatState) :
  onPinnedMessageUpdated_handler
    {| pu_conversationId := pin_conv i;
       pu_pinnedMessage :=
         if isCurrentlyPinned i then None else Some (pin_message i) |} st
  = handleToggleGlobalPin_settled i (Resolved tt) st /\
  onPinnedMessageUpdated_handler
    {| pu_conversationId := pin_conv i;
       pu_pinnedMessage :=
         if isCurrentlyPinned i then None else Some (pin_message i) |}
    (handleToggleGlobalPin_settled i (Resolved tt) st)
  = handleToggleGlobalPin_settled i (Resolved tt) st.
Proof.
  split; [reflexivity|].
  change (handleToggleGlobalPin_settled i (Resolved tt) st)
    with (onPinnedMessageUpdated_handler
            {| pu_conversationId := pin_conv i;
               pu_pinnedMessage :=
                 if isCurrentlyPinned i then None
                 else Some (pin_message i) |} st).
  now apply pinned_update_absorbs.
Qed.

End Directory.

(** ** The order of the directory after a new message *)

Section DirectoryOrder.
Import ChatPage.

(** Newest first. *)
Abbreviation recent_first :=
  (fun a b : Conversation => last_activity b <= last_activity a).

Lemma insert_by_recency_perm (c : Conversation) (l : list Conversation) :
  insert_by_recency c l ≡ₚ c :: l.
Proof.
  induction l as [|d l IH]; simpl; [reflexivity|].
  destruct (_ <=? 0); [reflexivity|].
  rewrite IH. apply Permutation_swap.
Qed.

Lemma sort_by_recency_perm (l : list Conversation) :
  sort_by_recency l ≡ₚ l.
Proof.
  unfold sort_by_recency. induction l as [|c l IH]; simpl; [reflexivity|].
  now rewrite insert_by_recency_perm, IH.
Qed.

Lemma insert_by_recency_sorted (c : Conversation) (l : list Conversation) :
  Sorted recent_first l -> Sorted recent_first (insert_by_recency c l).
Proof.
  induction l as [|d l IH]; intros Hs; simpl.
  - repeat constructor.
  - destruct (Z.leb_spec (last_activity d - last_activity c) 0) as [H|H].
    + constructor; [exact Hs|]. constructor. lia.
    + apply Sorted_inv in Hs as [Hs Hd]. constructor; [now apply IH|].
      destruct l as [|e l]; simpl.
      * constructor. lia.
      * destruct (_ <=? 0); constructor; [lia|].
        now apply HdRel_inv in Hd.
Qed.

Lemma sort_by_recency_sorted (l : list Conversation) :
  Sorted recent_first (sort_by_recency l).
Proof.
  unfold sort_by_recency. induction l as [|c l IH]; simpl.
  - constructor.
  - now apply insert_by_recency_sorted.
Qed.

(** The sort is stable, so a list that is in order is left as it is. *)
Lemma sort_by_recency_fixes_sorted (l : list Conversation) :
  Sorted recent_first l -> sort_by_recency l = l.
Proof.
  unfold sort_by_recency. induction l as [|c l IH]; intros Hs; simpl;
    [reflexivity|].
  apply Sorted_inv in Hs as [Hs Hd]. rewrite (IH Hs).
  destruct l as [|d l]; [reflexivity|]. simpl.
  apply HdRel_inv in Hd.
  now rewrite (proj2 (Z.leb_le _ _)) by lia.
Qed.

Lemma conv_id_touch (m : Message) (c : Conversation) :
  conv_id (touch_conversation m c) = conv_id c.
Proof. unfold touch_conversation. now destruct (str_eqb _ _). Qed.

Lemma touch_twice (m : Message) (c : Conversation) :
  touch_conversation m (touch_conversation m c) = touch_conversation m c.
Proof.
  unfold touch_conversation.
  destruct (str_eqb (conv_id c) (conversation_id m)) eqn:E.
  - cbn [conv_id]. now rewrite E.
  - now rewrite E.
Qed.

Lemma conversations_onNewMessage (m : Message) (st : ChatState) :
  conversations (onNewMessage_handler m st)
  = sort_by_recency (List.map (touch_conversation m) (conversations st)).
Proof.
  unfold onNewMessage_handler.
  now destruct (opt_str_eqb (conversation_id m) (activeConvId st)).
Qed.

(** After every [new_message] event the directory is in order of last
    activity, newest first, and holds the same conversations as before: no
    id is added, lost or doubled, whether or not the message belongs to a
    conversation the directory knows. *)
Theorem directory_sorted_after_message (m : Message) (st : ChatState) :
  Sorted recent_first (conversations (onNewMessage_handler m st)) /\
  conv_id <$> conversations (onNewMessage_handler m st)
  ≡ₚ conv_id <$> conversations st.
Proof.
  rewrite conversations_onNewMessage. split.
  - apply sort_by_recency_sorted.
  - rewrite sort_by_recency_perm.
    induction (conversations st) as [|c l IH]; [reflexivity|].
    cbn [List.map]. rewrite !fmap_cons, conv_id_touch. now f_equiv.
Qed.

(** The head of a list in order is at least as recent as every element. *)
Lemma sorted_head_newest (h : Conversation) (l : list Conversation)
    (x : Conversation) :
  Sorted recent_first (h :: l) -> x ∈ h :: l ->
  last_activity x <= last_activity h.
Proof.
  intros Hs Hx. apply Sorted_StronglySorted in Hs; [|intros a b c; lia].
  apply StronglySorted_inv in Hs as [_ Hall].
  apply elem_of_cons in Hx as [->|Hx]; [lia|].
  rewrite List.Forall_forall in Hall. apply Hall.
  now apply list_elem_of_In.
Qed.

(** A message newer than the last activity of every other conversation
    brings its conversation to the front of the directory, with the summary
    line and the time of the message. *)
Theorem newest_message_moves_conversation_to_front
    (m : Message) (c : Conversation) (st : ChatState) :
  c ∈ conversations st ->
  conv_id c = conversation_id m ->
  (forall d, d ∈ conversations st -> conv_id d <> conversation_id m ->
             last_activity d < created_at m) ->
  exists h,
    head (conversations (onNewMessage_handler m st)) = Some h /\
    conv_id h = conversation_id m /\
    last_message h = Some (summary_of m) /\
    last_message_at h = Some (created_at m).
Proof.
  intros Hc Hid Hnewest. rewrite conversations_onNewMessage.
  pose proof (sort_by_recency_sorted
                (List.map (touch_conversation m) (conversations st))) as Hs.
  pose proof (sort_by_recency_perm
                (List.map (touch_conversation m) (conversations st))) as Hp.
  assert (Htc : touch_conversation m c
                ∈ sort_by_recency
                    (List.map (touch_conversation m) (conversations st))).
  { rewrite Hp. apply list_elem_of_In, in_map. now apply list_elem_of_In. }
  destruct (sort_by_recency _) as [|h l] eqn:E.
  { now apply not_elem_of_nil in Htc. }
  exists h. split; [reflexivity|].
  assert (Hh : h ∈ List.map (touch_conversation m) (conversations st)).
  { rewrite <- Hp. left. }
  apply list_elem_of_In, in_map_iff in Hh as (d & Hd & Hin).
  apply list_elem_of_In in Hin.
  pose proof (sorted_head_newest h l _ Hs Htc) as Hle.
  assert (Hact : last_activity (touch_conversation m c) = created_at m).
  { unfold touch_conversation, str_eqb.
    now rewrite (bool_decide_eq_true_2 _ Hid). }
  rewrite Hact in Hle. subst h.
  unfold touch_conversation in *.
  destruct (str_eqb (conv_id d) (conversation_id m)) eqn:Ed.
  - cbn. apply bool_decide_eq_true in Ed. auto.
  - apply bool_decide_eq_false in Ed.
    specialize (Hnewest d Hin Ed). lia.
Qed.

(** Conversation B, active a moment after the epoch, stands above A in
    the directory; the message of 10:00 for A is newer than that, so A goes
    to the front with the text and the time of the message, and B follows. *)
Lemma newest_message_moves_conversation_to_front_witness :
  exists h,
    head (conversations
            (onNewMessage_handler Sample.m1000 Sample.openA_belowB))
    = Some h /\
    conv_id h = js "A" /\
    last_message h = Some (js "first") /\
    last_message_at h = Some 36000000.
Proof.
  apply (newest_message_moves_conversation_to_front
           Sample.m1000 Sample.convA Sample.openA_belowB).
  - simpl. right. left.
  - reflexivity.
  - intros d Hd Hne. simpl in Hd.
    apply elem_of_cons in Hd as [->|Hd]; [reflexivity|].
    apply list_elem_of_singleton in Hd. subst d. now contradiction Hne.
Defined.

Example message_reorders_directory :
  conv_id <$> conversations Sample.openA_belowB = [js "B"; js "A"] /\
  conv_id <$>
    conversations (onNewMessage_handler Sample.m1000 Sample.openA_belowB)
  = [js "A"; js "B"].
Proof. split; vm_compute; reflexivity. Qed.

Lemma appendIfNew_twice (m : Message) (prev : list Message) :
  appendIfNew m (appendIfNew m prev) = appendIfNew m prev.
Proof.
  apply appendIfNew_present. unfold appendIfNew.
  destruct (has_message prev m) eqn:H.
  - now apply has_message_spec.
  - rewrite fmap_app. apply elem_of_app. right. simpl. left.
Qed.

Lemma onNewMessage_handler_twice (m : Message) (st : ChatState) :
  onNewMessage_handler m (onNewMessage_handler m st)
  = onNewMessage_handler m st.
Proof.
  assert (Hc : sort_by_recency
                 (List.map (touch_conversation m)
                    (sort_by_recency
                       (List.map (touch_conversation m) (conversations st))))
               = sort_by_recency
                   (List.map (touch_conversation m) (conversations st))).
  { assert (Hfix : List.map (touch_conversation m)
                     (sort_by_recency
                        (List.map (touch_conversation m) (conversations st)))
                   = sort_by_recency
                       (List.map (touch_conversation m) (conversations st))).
    { rewrite <- (List.map_id (sort_by_recency _)) at 2.
      apply List.map_ext_in. intros x Hx.
      apply list_elem_of_In in Hx. rewrite sort_by_recency_perm in Hx.
      apply list_elem_of_In, in_map_iff in Hx as (d & <- & _).
      apply touch_twice. }
    rewrite Hfix. apply sort_by_recency_fixes_sorted,
      sort_by_recency_sorted. }
  unfold onNewMessage_handler at 1.
  rewrite activeConvId_onNewMessage.
  unfold onNewMessage_handler.
  destruct (opt_str_eqb (conversation_id m) (activeConvId st));
    unfold setConversations, setMessages;
    cbn [conversations activeConvId messages messageInput loadingMsgs
         sending typingUsers showMobileChat mediaPreview uploading
         uploadError showAttachMenu replyingTo mentionQuery typingTimer];
    rewrite Hc, ?appendIfNew_twice; reflexivity.
Qed.

(** A [new_message] event that comes a second time, as the broadcast of a
    message does after another copy of it, leaves every state cell of the
    page as the first delivery left it: the timeline, the directory and all
    the rest.  What the repeat still does is scroll: the scroll to the
    bottom is scheduled for every event of the active conversation, known
    id or not, so the second delivery schedules it again, 50 ms ahead, and
    for an event of another conversation neither delivery does. *)
Theorem repeated_message_only_scrolls (m : Message) (st : ChatState) :
  onNewMessage_handler m (onNewMessage_handler m st)
  = onNewMessage_handler m st /\
  onNewMessage_scroll m (onNewMessage_handler m st)
  = onNewMessage_scroll m st /\
  onNewMessage_scroll m st
  = (if decide (activeConvId st = Some (conversation_id m))
     then Some 50 else None).
Proof.
  split; [apply onNewMessage_handler_twice|].
  unfold onNewMessage_scroll. rewrite activeConvId_onNewMessage.
  split; [reflexivity|]. rewrite opt_str_eqb_decide.
  now case_bool_decide; [rewrite decide_True | rewrite decide_False].
Qed.

End DirectoryOrder.

(** ** What the timeline holds *)

Section TimelineContents.
Import ChatPage.

Variable toDateString : Z -> jsstring.

Lemma appendIfNew_elem (m x : Message) (prev : list Message) :
  x ∈ appendIfNew m prev -> x ∈ prev \/ x = m.
Proof.
  unfold appendIfNew. destruct (has_message prev m); [now left|].
  intros [H|H]%elem_of_app; [now left|].
  apply list_elem_of_singleton in H. now right.
Qed.

Lemma appendIfNew_id_present (m : Message) (prev : list Message) :
  id m ∈ id <$> appendIfNew m prev.
Proof.
  unfold appendIfNew. destruct (has_message prev m) eqn:H.
  - now apply has_message_spec.
  - rewrite fmap_app. apply elem_of_app. right. simpl. left.
Qed.

Lemma appendIfNew_keeps (m : Message) (prev : list Message) (i : jsstring) :
  i ∈ id <$> prev -> i ∈ id <$> appendIfNew m prev.
Proof.
  unfold appendIfNew. destruct (has_message prev m); [auto|].
  intros H. rewrite fmap_app. apply elem_of_app. now left.
Qed.

Lemma deliver_keeps_ids (events : list Message) (st : ChatState)
    (i : jsstring) :
  i ∈ id <$> messages st -> i ∈ id <$> messages (deliver events st).
Proof.
  unfold deliver. revert st.
  induction events as [|m events IH]; intros st H; simpl; [exact H|].
  apply IH. rewrite messages_onNewMessage.
  destruct (opt_str_eqb _ _); [now apply appendIfNew_keeps | exact H].
Qed.

Lemma activeConvId_deliver (events : list Message) (st : ChatState) :
  activeConvId (deliver events st) = activeConvId st.
Proof.
  unfold deliver. revert st.
  induction events as [|m events IH]; intros st; simpl; [reflexivity|].
  now rewrite IH, activeConvId_onNewMessage.
Qed.

(** Events never bring a message of another conversation into the
    timeline: if every message shown belongs to the active conversation,
    that stays so whatever events come in; and every event that is for the
    active conversation is in the timeline afterwards, by its id. *)
Theorem timeline_holds_active_conversation
    (events : list Message) (st : ChatState) :
  Forall (fun x => activeConvId st = Some (conversation_id x))
    (messages st) ->
  Forall (fun x => activeConvId st = Some (conversation_id x))
    (messages (deliver events st)) /\
  Forall (fun m => activeConvId st = Some (conversation_id m) ->
                   id m ∈ id <$> messages (deliver events st)) events.
Proof.
  unfold deliver. revert st.
  induction events as [|m events IH]; intros st H; simpl.
  - split; [exact H | constructor].
  - assert (H1 : Forall
      (fun x => activeConvId (onNewMessage_handler m st)
                = Some (conversation_id x))
      (messages (onNewMessage_handler m st))).
    { rewrite activeConvId_onNewMessage, messages_onNewMessage.
      rewrite opt_str_eqb_decide.
      case_bool_decide as Ha; [|exact H].
      apply Forall_forall. intros x Hx.
      apply appendIfNew_elem in Hx as [Hx| ->]; [|exact Ha].
      rewrite Forall_forall in H. now apply H. }
    destruct (IH _ H1) as [IH1 IH2].
    rewrite activeConvId_onNewMessage in IH1, IH2.
    split; [exact IH1|]. constructor; [|exact IH2].
    intros Ha. apply (deliver_keeps_ids events).
    rewrite messages_onNewMessage, opt_str_eqb_decide.
    rewrite (bool_decide_eq_true_2 _ Ha). apply appendIfNew_id_present.
Qed.

Lemma timeline_holds_active_conversation_witness :
  Forall (fun x => Some (js "A") = Some (conversation_id x))
    (messages
       (deliver [Sample.m1000; Sample.mB; Sample.m1002] Sample.openA)).
Proof.
  apply (timeline_holds_active_conversation
           [Sample.m1000; Sample.mB; Sample.m1002] Sample.openA).
  constructor.
Defined.

(** *** The date groups *)

Lemma grouped_last_ok gs g :
  grouped toDateString (gs ++ [g]) -> group_ok toDateString g.
Proof.
  intros H. inversion H as [|g0 Hg0 E|gs0 g0 g1 H0 H1 H2 E].
  - now destruct gs.
  - destruct gs as [|? [|? ?]]; simpl in E; try discriminate.
    now injection E as ->.
  - apply app_inj_tail in E as [_ ->]. exact H1.
Qed.

Lemma grouped_replace_last gs g g' :
  grouped toDateString (gs ++ [g]) -> group_ok toDateString g' ->
  date g' = date g -> grouped toDateString (gs ++ [g']).
Proof.
  intros H Hok Hd. inversion H as [|g0 Hg0 E|gs0 g0 g1 H0 H1 H2 E].
  - now destruct gs.
  - destruct gs as [|? [|? ?]]; simpl in E; try discriminate.
    now constructor.
  - apply app_inj_tail in E as [<- ->].
    constructor; [exact H0 | exact Hok | congruence].
Qed.

Lemma push_grouped_grouped gs msg :
  grouped toDateString gs ->
  grouped toDateString (push_grouped toDateString gs msg).
Proof.
  intros H. unfold push_grouped.
  destruct gs as [|g gs _] using rev_ind.
  - simpl. constructor. split; [discriminate | now repeat constructor].
  - rewrite last_snoc, removelast_last.
    pose proof (grouped_last_ok _ _ H) as [Hne Hall].
    unfold str_eqb. case_bool_decide as Hd.
    + apply (grouped_replace_last gs g); [exact H| |reflexivity].
      split; simpl.
      * now destruct (group_messages g).
      * apply Forall_app. split; [exact Hall|]. now repeat constructor.
    + constructor; [exact H| |exact Hd].
      split; [discriminate | now repeat constructor].
Qed.

Lemma groupedMessages_grouped (st : ChatState) :
  grouped toDateString (groupedMessages toDateString st).
Proof.
  unfold groupedMessages.
  assert (H : forall msgs gs, grouped toDateString gs ->
            grouped toDateString (foldl (push_grouped toDateString) gs msgs)).
  { induction msgs as [|m msgs IH]; intros gs Hgs; simpl; [exact Hgs|].
    apply IH, push_grouped_grouped, Hgs. }
  apply H. constructor.
Qed.

Lemma grouped_all_ok gs :
  grouped toDateString gs -> Forall (group_ok toDateString) gs.
Proof.
  induction 1 as [|g Hg|gs g g' H IH Hg' Hd].
  - constructor.
  - constructor; [exact Hg | constructor].
  - apply Forall_app. split; [exact IH|].
    constructor; [exact Hg' | constructor].
Qed.

Lemma grouped_neighbours gs (i : nat) g1 g2 :
  grouped toDateString gs ->
  gs !! i = Some g1 -> gs !! S i = Some g2 -> date g1 <> date g2.
Proof.
  intros H. revert i g1 g2.
  induction H as [|g Hg|gs g g' H IH Hg' Hd]; intros i g1 g2 H1 H2.
  - discriminate.
  - destruct i; discriminate.
  - destruct (decide (S i < length (gs ++ [g]))%nat) as [Hlt|Hge].
    + rewrite lookup_app_l in H1 by lia.
      rewrite lookup_app_l in H2 by lia. now apply (IH i).
    + pose proof (lookup_lt_Some _ _ _ H2) as Hlen.
      rewrite length_app in Hge. rewrite length_app in Hlen.
      rewrite length_app in Hlen. simpl in Hlen, Hge.
      assert (Hi : i = length gs) by lia.
      subst i.
      rewrite lookup_app_l in H1 by (rewrite length_app; simpl; lia).
      rewrite lookup_app_r in H1 by lia.
      rewrite Nat.sub_diag in H1. injection H1 as <-.
      rewrite lookup_app_r in H2 by (rewrite length_app; simpl; lia).
      replace (S (length gs) - length (gs ++ [g]))%nat with 0%nat in H2
        by (rewrite length_app; simpl; lia).
      injection H2 as <-. exact Hd.
Qed.

(** The date headers of the timeline: every group has at least one
    message, all its messages fall on the date of its header, and two
    groups that follow each other have different dates. *)
Theorem date_groups_well_formed (st : ChatState) :
  Forall
    (fun g =>
       group_messages g <> [] /\
       Forall (fun x => toDateString (created_at x) = date g)
         (group_messages g))
    (groupedMessages toDateString st) /\
  (forall (i : nat) g1 g2,
     groupedMessages toDateString st !! i = Some g1 ->
     groupedMessages toDateString st !! S i = Some g2 ->
     date g1 <> date g2).
Proof.
  pose proof (groupedMessages_grouped st) as H. split.
  - exact (grouped_all_ok _ H).
  - intros i g1 g2. now apply grouped_neighbours.
Qed.

End TimelineContents.

(** ** The locally pinned conversations *)

Section PinToTop.
Import ChatPage.

Lemma elem_of_unpinned (convId x : jsstring) (prev : list jsstring) :
  x ∈ List.filter (fun i => negb (str_eqb i convId)) prev
  <-> x ∈ prev /\ x <> convId.
Proof.
  rewrite !list_elem_of_In, filter_In, negb_true_iff.
  unfold str_eqb. now rewrite bool_decide_eq_false.
Qed.

(** The pin-to-top button of a conversation flips its membership in the
    locally pinned list and touches no other entry: pinning adds the id
    once at the end, unpinning removes every copy of it.  A list without
    repeats stays without repeats. *)
Theorem togglePin_flips_membership (convId : jsstring)
    (prev : list jsstring) :
  NoDup prev ->
  NoDup (togglePin convId prev) /\
  (convId ∈ togglePin convId prev <-> convId ∉ prev) /\
  (forall x, x <> convId -> (x ∈ togglePin convId prev <-> x ∈ prev)).
Proof.
  intros Hnd. unfold togglePin. case_bool_decide as Hin.
  - split; [|split].
    + apply NoDup_ListNoDup, List.NoDup_filter. now apply NoDup_ListNoDup.
    + split; intros Hx; [|now contradiction Hx].
      apply elem_of_unpinned in Hx as [_ Hx]. now contradiction Hx.
    + intros x Hne. rewrite elem_of_unpinned. tauto.
  - split; [|split].
    + apply NoDup_app. repeat split; [exact Hnd| |apply NoDup_singleton].
      intros x Hx Hx'. apply list_elem_of_singleton in Hx'. now subst x.
    + split; intros _; [exact Hin|]. apply elem_of_app. right. left.
    + intros x Hne. rewrite elem_of_app, list_elem_of_singleton. tauto.
Qed.

Lemma togglePin_flips_membership_witness :
  togglePin (js "A") [js "B"; js "A"; js "C"] = [js "B"; js "C"] /\
  togglePin (js "A") [js "B"; js "C"] = [js "B"; js "C"; js "A"] /\
  NoDup (togglePin (js "A") [js "B"; js "A"; js "C"]).
Proof.
  split; [vm_compute; reflexivity|]. split; [vm_compute; reflexivity|].
  apply (togglePin_flips_membership (js "A") [js "B"; js "A"; js "C"]).
  apply NoDup_ListNoDup. repeat constructor; simpl; intros H;
    repeat (destruct H as [H|H]; [discriminate H|]); exact H.
Defined.

End PinToTop.

(** ** The sidebar *)

Section Sidebar.
Import ChatPage.

Variable currentUserId : jsstring.
Variable toLowerCase : jsstring -> jsstring.

(** *** Pinned first *)

Lemma insert_sorted_pinned (pinned : list jsstring) (x : Conversation)
    (l : list Conversation) :
  is_pinned pinned x = true ->
  insert_sorted (sortConvs pinned) x l = x :: l.
Proof.
  intros Hx. destruct l as [|y l]; [reflexivity|]. simpl.
  unfold sortConvs. rewrite Hx. now destruct (is_pinned pinned y).
Qed.

Lemma insert_sorted_unpinned (pinned : list jsstring) (x : Conversation)
    (P Q : list Conversation) :
  is_pinned pinned x = false ->
  List.Forall (fun c => is_pinned pinned c = true) P ->
  List.Forall (fun c => is_pinned pinned c = false) Q ->
  insert_sorted (sortConvs pinned) x (P ++ Q) = P ++ x :: Q.
Proof.
  intros Hx HP HQ. induction HP as [|y P Hy HP IH]; simpl.
  - destruct HQ as [|z Q Hz HQ]; [reflexivity|]. simpl.
    unfold sortConvs. now rewrite Hx, Hz.
  - unfold sortConvs at 1. rewrite Hx, Hy. simpl. now rewrite IH.
Qed.

Lemma filter_Forall_true {A} (p : A -> bool) (l : list A) :
  List.Forall (fun c => p c = true) (List.filter p l).
Proof.
  apply List.Forall_forall. intros x Hx. now apply filter_In in Hx.
Qed.

Lemma filter_Forall_false {A} (p : A -> bool) (l : list A) :
  List.Forall (fun c => p c = false) (List.filter (fun c => negb (p c)) l).
Proof.
  apply List.Forall_forall. intros x Hx. apply filter_In in Hx as [_ H].
  now apply negb_true_iff.
Qed.

(** Sorting with [sortConvs] is a stable partition: the pinned
    conversations first, the others after them, each part in the order it
    had. *)
Lemma sortConvs_partitions (pinned : list jsstring)
    (l : list Conversation) :
  array_sort (sortConvs pinned) l
  = List.filter (is_pinned pinned) l
    ++ List.filter (fun c => negb (is_pinned pinned c)) l.
Proof.
  unfold array_sort. induction l as [|x l IH]; [reflexivity|].
  cbn [foldr List.filter]. rewrite IH.
  destruct (is_pinned pinned x) eqn:Hx; cbn [negb].
  - now apply insert_sorted_pinned.
  - apply insert_sorted_unpinned;
      [exact Hx | apply filter_Forall_true | apply filter_Forall_false].
Qed.

Lemma filter_split_perm {A} (p : A -> bool) (l : list A) :
  List.filter p l ++ List.filter (fun c => negb (p c)) l ≡ₚ l.
Proof.
  induction l as [|x l IH]; [reflexivity|]. simpl.
  destruct (p x); simpl.
  - now rewrite IH.
  - rewrite <- Permutation_middle. now rewrite IH.
Qed.

(** The two sections of the sidebar.  Each lists its conversations with
    the locally pinned ones first and otherwise in the order of the
    directory; together they show every conversation that passes the
    search filter exactly once; and with an empty search text that is every
    conversation of the directory. *)
Theorem sidebar_sections (pinned : list jsstring) (searchFilter : jsstring)
    (st : ChatState) :
  sortedGroups currentUserId toLowerCase pinned searchFilter st
  = List.filter (is_pinned pinned)
      (groupConversations currentUserId toLowerCase searchFilter st)
    ++ List.filter (fun c => negb (is_pinned pinned c))
         (groupConversations currentUserId toLowerCase searchFilter st) /\
  sortedDms currentUserId toLowerCase pinned searchFilter st
  = List.filter (is_pinned pinned)
      (dmConversations currentUserId toLowerCase searchFilter st)
    ++ List.filter (fun c => negb (is_pinned pinned c))
         (dmConversations currentUserId toLowerCase searchFilter st) /\
  sortedGroups currentUserId toLowerCase pinned searchFilter st
    ++ sortedDms currentUserId toLowerCase pinned searchFilter st
  ≡ₚ filteredConversations currentUserId toLowerCase searchFilter st /\
  filteredConversations currentUserId toLowerCase [] st = conversations st.
Proof.
  unfold sortedGroups, sortedDms. rewrite !sortConvs_partitions.
  split; [reflexivity|]. split; [reflexivity|]. split.
  - rewrite !filter_split_perm.
    unfold groupConversations, dmConversations.
    rewrite <- (filter_split_perm is_group
      (filteredConversations currentUserId toLowerCase searchFilter st))
      at 3.
    f_equiv.
    rewrite (List.filter_ext is_dm (fun c => negb (is_group c)));
      [reflexivity|].
    intros c. unfold is_dm, is_group. now destruct (conv_type c).
  - unfold filteredConversations. cbn [truthy].
    induction (conversations st) as [|c l IH]; [reflexivity|].
    simpl. now rewrite IH.
Qed.

End Sidebar.

(** ** Switching the conversation *)

Section Switching.
Import ChatPage.

Variable toDateString : Z -> jsstring.

(** A click on a conversation makes it the active one and empties the
    typing set and the reply target.  The draft, the staged attachment and
    the messages held are left as they are.  A load of the messages is
    requested only if the conversation was not the active one already, and
    while it runs the timeline renders nothing. *)
Theorem switching_conversation (convId : jsstring) (st : ChatState) :
  activeConvId (fst (select_conversation convId st)) = Some convId /\
  typingUsers (fst (select_conversation convId st)) = ∅ /\
  replyingTo (fst (select_conversation convId st)) = None /\
  messageInput (fst (select_conversation convId st)) = messageInput st /\
  mediaPreview (fst (select_conversation convId st)) = mediaPreview st /\
  messages (fst (select_conversation convId st)) = messages st /\
  snd (select_conversation convId st)
  = (if decide (activeConvId st = Some convId) then []
     else if truthy convId then [call_getMessages convId] else []) /\
  rendered_timeline toDateString (fst (select_conversation convId st))
  = (if decide (activeConvId st = Some convId)
     then rendered_timeline toDateString st
     else if truthy convId then []
     else rendered_timeline toDateString st).
Proof.
  unfold select_conversation, activeConvId_effect, loadMessages.
  cbn [activeConvId handleSelectConversation setReplyingTo setTypingUsers
       setShowMobileChat setActiveConvId].
  destruct (decide (activeConvId st = Some convId)) as [Ha|Ha].
  - rewrite (bool_decide_eq_true_2 _ Ha). now repeat split.
  - rewrite (bool_decide_eq_false_2 _ Ha).
    destruct (truthy convId); now repeat split.
Qed.

End Switching.

(** ** The composer: what is sent, and when *)

Section SendRules.
Import ChatPage.

Lemma drop_spaces_split (s : jsstring) :
  exists pre, s = pre ++ drop_spaces s /\ forallb is_space pre = true.
Proof.
  induction s as [|c s (pre & Hs & Hpre)]; [now exists []|]. simpl.
  destruct (is_space c) eqn:Hc; [|now exists []].
  exists (c :: pre). simpl. rewrite Hc, Hpre. split; [congruence|reflexivity].
Qed.

Lemma drop_spaces_head (s : jsstring) :
  drop_spaces s = [] \/ is_space <$> head (drop_spaces s) = Some false.
Proof.
  induction s as [|c s IH]; [now left|]. simpl.
  destruct (is_space c) eqn:Hc; [exact IH|]. right. simpl. now rewrite Hc.
Qed.

(** [trim] takes white space off both ends and nothing else. *)
Lemma trim_split (s : jsstring) :
  exists pre post,
    s = pre ++ trim s ++ post /\
    forallb is_space pre = true /\ forallb is_space post = true.
Proof.
  unfold trim.
  destruct (drop_spaces_split s) as (pre & Hs & Hpre).
  destruct (drop_spaces_split (rev (drop_spaces s))) as (post & Ht & Hpost).
  exists pre, (rev post). repeat split; [|exact Hpre|].
  - rewrite <- rev_app_distr, <- Ht, rev_involutive. exact Hs.
  - rewrite forallb_forall in *. intros x Hx. apply Hpost.
    now apply in_rev.
Qed.

Lemma head_rev_last {A} (l : list A) : head (rev l) = last l.
Proof.
  induction l as [|x l IH] using rev_ind; [reflexivity|].
  now rewrite rev_unit, last_snoc.
Qed.

Lemma last_rev_head {A} (l : list A) : last (rev l) = head l.
Proof. now rewrite <- head_rev_last, rev_involutive. Qed.

Lemma last_suffix {A} (pre l : list A) :
  l <> [] -> last (pre ++ l) = last l.
Proof.
  intros Hl. destruct l as [|x l _] using rev_ind; [congruence|].
  now rewrite app_assoc, !last_snoc.
Qed.

Lemma trim_ends (s : jsstring) :
  truthy (trim s) = true ->
  is_space <$> head (trim s) = Some false /\
  is_space <$> last (trim s) = Some false.
Proof.
  unfold trim. intros Hne.
  destruct (drop_spaces_head (rev (drop_spaces s))) as [E|Hh].
  { rewrite E in Hne. discriminate. }
  split; [|now rewrite last_rev_head].
  rewrite head_rev_last.
  destruct (drop_spaces_split (rev (drop_spaces s))) as (pre & Ht & _).
  assert (Hu : drop_spaces (rev (drop_spaces s)) <> []).
  { intros E. rewrite E in Hne. discriminate. }
  rewrite <- (last_suffix pre _ Hu), <- Ht, last_rev_head.
  destruct (drop_spaces_head s) as [E|Hs]; [|exact Hs].
  rewrite E in Hu. now contradiction Hu.
Qed.

(** The text [handleSend] sends is the draft without the white space at
    its two ends: it is not empty, it neither begins nor ends with white
    space, and it is sent in one request to the active conversation. *)
Theorem sent_text_is_trimmed (st : ChatState) (convId : jsstring) :
  sendable_text st convId ->
  exists content pre post,
    snd (handleSend st)
    = [call_sendMessage convId content (id <$> replyingTo st)] /\
    messageInput st = pre ++ content ++ post /\
    forallb is_space pre = true /\ forallb is_space post = true /\
    is_space <$> head content = Some false /\
    is_space <$> last content = Some false.
Proof.
  intros H. rewrite (handleSend_text st convId H).
  destruct (trim_split (messageInput st)) as (pre & post & Hs & Hpre & Hpost).
  destruct (trim_ends (messageInput st) (send_text_nonblank _ _ H))
    as [Hh Hl].
  exists (trim (messageInput st)), pre, post. now repeat split.
Qed.

Lemma sent_text_is_trimmed_witness :
  exists content pre post,
    snd (handleSend (setMessageInput (js "  hello ") Sample.openA))
    = [call_sendMessage (js "A") content None] /\
    js "  hello " = pre ++ content ++ post /\
    forallb is_space pre = true /\ forallb is_space post = true /\
    is_space <$> head content = Some false /\
    is_space <$> last content = Some false.
Proof.
  apply (sent_text_is_trimmed
           (setMessageInput (js "  hello ") Sample.openA) (js "A")).
  split; reflexivity.
Defined.

(** The guard on [sending]: while it is set, [handleSend] does nothing,
    whatever the draft and whatever is staged. *)
Lemma handleSend_while_sending (st : ChatState) :
  sending st = true -> handleSend st = (st, []).
Proof.
  intros Hs. unfold handleSend. rewrite Hs.
  destruct (activeConvId st) as [c|]; [|reflexivity].
  now rewrite orb_true_r.
Qed.

Lemma sending_handleInputChange toLowerCase val sel st :
  sending (fst (handleInputChange toLowerCase val sel st)) = sending st.
Proof.
  unfold handleInputChange.
  destruct (activeConvId st) as [conv|];
    [destruct (truthy conv); [destruct (truthy (trim val))|]|];
    cbn [fst]; now destruct (startsWith _ _).
Qed.

(** While a text send is in flight, nothing more is sent.  A second
    Enter right away does nothing; and neither does one after more text has
    been typed, or after an attachment has been read and staged, although
    the draft is sendable again by then: the request under way blocks
    [handleSend] until it has settled. *)
Theorem double_submit_sends_once
    (toLowerCase : jsstring -> jsstring) (st : ChatState)
    (convId val data : jsstring) (sel : option Z) (f : File) :
  sendable_text st convId ->
  handleSend (fst (handleSend st)) = (fst (handleSend st), []) /\
  handleSend
    (fst (handleInputChange toLowerCase val sel (fst (handleSend st))))
  = (fst (handleInputChange toLowerCase val sel (fst (handleSend st))), [])
  /\
  handleSend (reader_onload f data (fst (handleSend st)))
  = (reader_onload f data (fst (handleSend st)), []).
Proof.
  intros H.
  assert (Hs : sending (fst (handleSend st)) = true)
    by now rewrite (handleSend_text st convId H).
  split; [|split]; apply handleSend_while_sending.
  - exact Hs.
  - now rewrite sending_handleInputChange.
  - exact Hs.
Qed.

End SendRules.

(** "hello" is on its way when "again" is typed and Enter is pressed:
    nothing goes out. *)
Lemma double_submit_sends_once_witness :
  ChatPage.messageInput
    (fst (ChatPage.handleInputChange Sample.ascii_toLowerCase (js "again")
            (Some 5)
            (fst (ChatPage.handleSend
                    (ChatPage.setMessageInput (js "hello") Sample.openA)))))
  = js "again" /\
  snd (ChatPage.handleSend
         (fst (ChatPage.handleInputChange Sample.ascii_toLowerCase
                 (js "again") (Some 5)
                 (fst (ChatPage.handleSend
                         (ChatPage.setMessageInput (js "hello")
                            Sample.openA))))))
  = [].
Proof.
  split; [reflexivity|].
  destruct (double_submit_sends_once Sample.ascii_toLowerCase
              (ChatPage.setMessageInput (js "hello") Sample.openA)
              (js "A") (js "again") [] (Some 5) Sample.png_3MiB)
    as (_ & H & _).
  - split; reflexivity.
  - rewrite H. reflexivity.
Defined.

(** Once "hello" has been acknowledged, "again" is sent. *)
Example send_after_acknowledgment :
  snd (ChatPage.handleSend
         (fst (ChatPage.handleInputChange Sample.ascii_toLowerCase
                 (js "again") (Some 5)
                 (fst (ChatPage.send_text
                         (Some {| auth_token := js "t";
                                  status_listeners := ∅ |})
                         (Some {| success := true;
                                  message := Some Sample.m1000 |})
                         (ChatPage.setMessageInput (js "hello")
                            Sample.openA))))))
  = [ChatPage.call_sendMessage (js "A") (js "again") None].
Proof. vm_compute. reflexivity. Qed.

Section BlankDraft.
Import ChatPage.

(** A draft of white space only, with nothing staged, is not sent: neither
    [handleSend] nor [handleSendMedia] issues a request or changes the
    state. *)
Theorem blank_draft_not_sent (st : ChatState) :
  trim (messageInput st) = [] -> mediaPreview st = None ->
  handleSend st = (st, []) /\ handleSendMedia st = (st, []).
Proof.
  intros Hb Hm. unfold handleSend, handleSendMedia. rewrite Hb, Hm.
  split; [|reflexivity]. now destruct (activeConvId st).
Qed.

Lemma blank_draft_not_sent_witness :
  handleSend (setMessageInput (js "   ") Sample.openA)
  = (setMessageInput (js "   ") Sample.openA, []).
Proof.
  apply (blank_draft_not_sent (setMessageInput (js "   ") Sample.openA));
    reflexivity.
Defined.

End BlankDraft.

(** ** The composer: sending an attachment *)

Section MediaSend.
Import ChatPage.

Lemma handleSend_media (st : ChatState) (convId : jsstring)
    (preview : MediaPreview) :
  sendable_media st convId preview ->
  handleSend st
  = (setUploadError None (setUploading true st),
     [call_sendMediaMessage convId (mp_type preview) (mp_data preview)
        (if truthy (trim (messageInput st))
         then Some (trim (messageInput st)) else None)
        (id <$> replyingTo st)]).
Proof.
  intros [Ha Hc Hm Hs Hu]. unfold handleSend, handleSendMedia.
  rewrite Ha, Hc, Hm, Hs, Hu.
  rewrite (bool_decide_eq_true_2 (is_Some (Some preview)))
    by (now exists preview).
  rewrite andb_false_r. reflexivity.
Qed.

(** With an attachment staged, a send goes out as one upload request that
    carries the staged type and data, the trimmed draft if there is one and
    the reply target; no socket message is sent, and nothing of the draft is
    cleared before the answer is in. *)
Theorem staged_attachment_goes_by_upload (st : ChatState)
    (convId : jsstring) (preview : MediaPreview) :
  sendable_media st convId preview ->
  snd (handleSend st)
  = [call_sendMediaMessage convId (mp_type preview) (mp_data preview)
       (if truthy (trim (messageInput st))
        then Some (trim (messageInput st)) else None)
       (id <$> replyingTo st)] /\
  transmitted_media (snd (handleSend st))
  = [(mp_type preview, mp_data preview)] /\
  messageInput (fst (handleSend st)) = messageInput st /\
  replyingTo (fst (handleSend st)) = replyingTo st /\
  mediaPreview (fst (handleSend st)) = Some preview /\
  uploading (fst (handleSend st)) = true.
Proof.
  intros H. rewrite (handleSend_media st convId preview H).
  destruct H as [_ _ Hm _ _]. now repeat split.
Qed.

Lemma staged_attachment_goes_by_upload_witness :
  snd (handleSend
         (setMediaPreview (Some Sample.gif_preview)
            (setMessageInput (js " look ") Sample.openA)))
  = [call_sendMediaMessage (js "A") (js "image/gif")
       (js "data:image/gif;base64,R0lG") (Some (js "look")) None].
Proof.
  destruct (staged_attachment_goes_by_upload
              (setMediaPreview (Some Sample.gif_preview)
                 (setMessageInput (js " look ") Sample.openA))
              (js "A") Sample.gif_preview) as [H _].
  - split; reflexivity.
  - rewrite H. reflexivity.
Defined.

(** The outcome of an upload.  If it fails, the attachment stays staged
    and the draft and the reply target stay as they were, so the send can be
    repeated as it is, and the reason is displayed in the preview bar (a
    fixed text if the error has none).  If it succeeds, attachment, draft
    and reply target are cleared.  Either way the upload flag is off
    again. *)
Theorem upload_outcome (st : ChatState) (convId : jsstring)
    (preview : MediaPreview) (err : jsstring) (sent : Message) :
  sendable_media st convId preview ->
  (let failed :=
     handleSendMedia_settled (Rejected err) (fst (handleSend st)) in
   mediaPreview failed = Some preview /\
   messageInput failed = messageInput st /\
   replyingTo failed = replyingTo st /\
   uploading failed = false /\
   rendered_uploadError failed
   = Some (if truthy err then err else js "Failed to send media")) /\
  (let done :=
     handleSendMedia_settled (Resolved sent) (fst (handleSend st)) in
   mediaPreview done = None /\
   messageInput done = [] /\
   replyingTo done = None /\
   uploading done = false /\
   rendered_uploadError done = None).
Proof.
  intros H. rewrite (handleSend_media st convId preview H).
  destruct H as [_ _ Hm _ _]. cbv zeta. cbn [fst]. split.
  - unfold rendered_uploadError. cbn. rewrite Hm. cbn.
    repeat split. now destruct (truthy err) eqn:E; rewrite ?E.
  - now repeat split.
Qed.

Lemma upload_outcome_witness :
  rendered_uploadError
    (handleSendMedia_settled (Rejected (js "Payload too large"))
       (fst (handleSend (setMediaPreview (Some Sample.gif_preview) Sample.openA))))
  = Some (js "Payload too large").
Proof.
  destruct (upload_outcome (setMediaPreview (Some Sample.gif_preview) Sample.openA)
              (js "A") Sample.gif_preview (js "Payload too large") Sample.m1000)
    as [(_ & _ & _ & _ & H) _].
  - split; reflexivity.
  - exact H.
Defined.

Lemma handleSend_untouched (st : ChatState) :
  messages (fst (handleSend st)) = messages st /\
  conversations (fst (handleSend st)) = conversations st /\
  activeConvId (fst (handleSend st)) = activeConvId st /\
  typingUsers (fst (handleSend st)) = typingUsers st.
Proof.
  unfold handleSend, handleSendMedia.
  destruct (activeConvId st) as [c|] eqn:Ha; [|cbn; auto].
  destruct (_ || _); [cbn; auto|].
  destruct (bool_decide _); [|cbn; auto].
  destruct (mediaPreview st); [|cbn; auto].
  destruct (_ || _); cbn; auto.
Qed.

Lemma handleSendMedia_settled_untouched (result : promise Message)
    (st : ChatState) :
  messages (handleSendMedia_settled result st) = messages st /\
  conversations (handleSendMedia_settled result st) = conversations st /\
  activeConvId (handleSendMedia_settled result st) = activeConvId st /\
  typingUsers (handleSendMedia_settled result st) = typingUsers st.
Proof. destruct result; now repeat split. Qed.

(** Sending puts nothing into the timeline or the directory.  On the text
    path, from the key press to the end of [handleSend] and whatever the
    acknowledgment, and on the upload path, from the key press through the
    answer of the upload to the end of [handleSendMedia], success or
    failure: the messages, the conversations, the active conversation and
    the typing set are what they were.  The message the server returns is
    dropped; a sent message shows up only when its [new_message] event
    arrives. *)
Theorem send_leaves_timeline (sock : option Socket)
    (response : option Ack) (result : promise Message) (st : ChatState) :
  (messages (fst (send_text sock response st)) = messages st /\
   conversations (fst (send_text sock response st)) = conversations st /\
   activeConvId (fst (send_text sock response st)) = activeConvId st /\
   typingUsers (fst (send_text sock response st)) = typingUsers st) /\
  (messages (handleSendMedia_settled result (fst (handleSend st)))
   = messages st /\
   conversations (handleSendMedia_settled result (fst (handleSend st)))
   = conversations st /\
   activeConvId (handleSendMedia_settled result (fst (handleSend st)))
   = activeConvId st /\
   typingUsers (handleSendMedia_settled result (fst (handleSend st)))
   = typingUsers st).
Proof.
  pose proof (handleSend_untouched st) as H. split.
  - unfold send_text.
    destruct (handleSend st) as [st1 calls]. cbn [fst] in H.
    destruct calls as [|[] [|]]; try exact H.
    unfold handleSend_settled.
    destruct (sendMessage_settled _ _ _ _ _); exact H.
  - destruct (handleSendMedia_settled_untouched result (fst (handleSend st)))
      as (-> & -> & -> & ->).
    exact H.
Qed.

(** The upload of a staged GIF succeeds and the server returns the stored
    message: the timeline is as empty as before. *)
Example uploaded_message_not_appended :
  messages
    (handleSendMedia_settled (Resolved Sample.m1000)
       (fst (handleSend
               (setMediaPreview (Some Sample.gif_preview) Sample.openA))))
  = [].
Proof. reflexivity. Qed.

End MediaSend.

(** ** The composer: when the mention list is open, and what it offers *)

Section MentionList.
Import ChatPage.

Variable currentUserId : jsstring.
Variable toLowerCase : jsstring -> jsstring.

(** The word under the cursor, for a cursor right behind a word [w] that
    begins the text or follows white space. *)
Lemma current_word (pre w post : jsstring) :
  (pre = [] \/ exists pre' sp, pre = pre' ++ [sp] /\ is_space sp = true) ->
  forallb (fun c => negb (is_space c)) w = true ->
  last_word
    (split_ws
       (slice (pre ++ w ++ post) 0
          (Some (Z.of_nat (length pre + length w)))))
  = w.
Proof.
  intros Hpre Hw.
  rewrite slice_prefix by lia. rewrite Nat2Z.id.
  rewrite app_assoc.
  rewrite take_app_length' by (rewrite length_app; lia).
  destruct Hpre as [->|(pre' & sp & -> & Hsp)].
  - rewrite app_nil_l. unfold last_word.
    now rewrite (split_ws_no_space _ Hw).
  - rewrite <- app_assoc.
    exact (last_word_after_space pre' w sp Hsp Hw).
Qed.

(** The mention list follows the word under the cursor.  With the cursor
    right behind a word that begins the text or follows white space, the
    query is open exactly if that word begins with "@", and then it holds
    the rest of the word in lower case and the offset of the "@".  So a
    space typed after a mention closes the list, and an "@" in the middle
    of a word, as in an e-mail address, does not open it. *)
Theorem mention_query_follows_word (pre w post : jsstring)
    (st : ChatState) :
  (pre = [] \/ exists pre' sp, pre = pre' ++ [sp] /\ is_space sp = true) ->
  forallb (fun c => negb (is_space c)) w = true ->
  mentionQuery
    (fst (handleInputChange toLowerCase (pre ++ w ++ post)
            (Some (Z.of_nat (length pre + length w))) st))
  = if startsWith w (js "@")
    then Some {| mq_active := true; mq_text := toLowerCase (drop 1 w);
                 mq_index := Z.of_nat (length pre) |}
    else None.
Proof.
  intros Hpre Hw.
  rewrite mentionQuery_handleInputChange. cbv zeta.
  cbn [from_option Datatypes.id].
  rewrite (current_word pre w post Hpre Hw).
  destruct (startsWith w (js "@")); [|reflexivity].
  rewrite slice_suffix by lia. do 2 f_equal. lia.
Qed.

Lemma includes_empty (s : jsstring) : includes s [] = true.
Proof. now destruct s. Qed.

(** The candidates of the mention list are members of the active
    conversation, in the order of its member list; the current user is
    never among them; each of them has the query in the lower-cased
    username or name; and for the bare "@", whose query is empty, they are
    all the other members. *)
Theorem mention_candidates (st : ChatState) (c : Conversation) :
  activeConv st = Some c ->
  sublist (mentionableMembers currentUserId toLowerCase st) (members c) /\
  Forall
    (fun m =>
       member_id m <> currentUserId /\
       (includes (toLowerCase (member_username m))
          (default [] (mq_text <$> mentionQuery st)) = true \/
        includes (toLowerCase (member_name m))
          (default [] (mq_text <$> mentionQuery st)) = true))
    (mentionableMembers currentUserId toLowerCase st) /\
  (default [] (mq_text <$> mentionQuery st) = [] ->
   mentionableMembers currentUserId toLowerCase st
   = List.filter (fun m => negb (str_eqb (member_id m) currentUserId))
       (members c)).
Proof.
  intros Hc. unfold mentionableMembers. rewrite Hc. cbv zeta.
  split; [|split].
  - induction (members c) as [|m l IH]; [constructor|]. simpl.
    destruct (_ && _); [now apply sublist_skip | now apply sublist_cons].
  - apply Forall_forall. intros m Hm.
    apply list_elem_of_In, filter_In in Hm as [_ Hm].
    apply andb_true_iff in Hm as [Hid Hq]. split.
    + apply negb_true_iff in Hid. unfold str_eqb in Hid.
      now apply bool_decide_eq_false in Hid.
    + now apply orb_true_iff in Hq.
  - intros ->. apply List.filter_ext. intros m.
    now rewrite !includes_empty, andb_true_r.
Qed.

End MentionList.

Lemma mention_query_follows_word_witness :
  ChatPage.mentionQuery
    (fst (ChatPage.handleInputChange Sample.ascii_toLowerCase
            (js "hi @Am ") (Some 7) Sample.openA)) = None /\
  ChatPage.mentionQuery
    (fst (ChatPage.handleInputChange Sample.ascii_toLowerCase
            (js "to a@b") (Some 6) Sample.openA)) = None.
Proof.
  split.
  - exact (mention_query_follows_word Sample.ascii_toLowerCase
             (js "hi @Am ") [] [] Sample.openA
             (or_intror
                (ex_intro _ (js "hi @Am")
                   (ex_intro _ 32%N (conj eq_refl eq_refl))))
             eq_refl).
  - exact (mention_query_follows_word Sample.ascii_toLowerCase
             (js "to ") (js "a@b") [] Sample.openA
             (or_intror
                (ex_intro _ (js "to")
                   (ex_intro _ 32%N (conj eq_refl eq_refl))))
             eq_refl).
Defined.

(** The bare "@" in conversation A, typed by the user "u-me": amy and
    amir are offered, the user is not. *)
Lemma mention_candidates_witness :
  List.map member_username
    (ChatPage.mentionableMembers (js "u-me") Sample.ascii_toLowerCase
       (fst (ChatPage.handleInputChange Sample.ascii_toLowerCase
               (js "@") (Some 1) Sample.openA)))
  = [js "amy"; js "amir"].
Proof.
  destruct (mention_candidates (js "u-me") Sample.ascii_toLowerCase
              (fst (ChatPage.handleInputChange Sample.ascii_toLowerCase
                      (js "@") (Some 1) Sample.openA))
              Sample.convA) as (_ & _ & H).
  - reflexivity.
  - rewrite H; reflexivity.
Defined.

(** ** The composer: the staging rule *)

Section Staging.
Import ChatPage.

(** What a file selection does, from the pick to the end of the read.
    The staged attachment is replaced exactly if the file is at most 2 MiB,
    its type begins with "image/" or "video/" and the read succeeds; in
    every other case the attachment staged before, if any, stays.  The
    attach menu is closed, and the error of an earlier attempt is replaced
    by the one of this attempt, or by none.  Without a file nothing
    happens. *)
Theorem attachment_staging_rule (f : File) (read : option jsstring)
    (st : ChatState) :
  mediaPreview (select_file f read st)
  = (if (file_size f <=? MAX_FILE_SIZE)%N && allowed_type f
     then match read with
          | Some data =>
              Some {| mp_type := file_type f; mp_data := data;
                      mp_name := file_name f |}
          | None => mediaPreview st
          end
     else mediaPreview st) /\
  uploadError (select_file f read st)
  = (if (file_size f <=? MAX_FILE_SIZE)%N
     then if allowed_type f
          then match read with
               | Some _ => None
               | None => Some (js "Failed to read file.")
               end
          else Some (js "Only images and videos are supported.")
     else Some (js "File too large (" ++ mebibytes_toFixed1 (file_size f)
                ++ js "MB). Max 2MB.")) /\
  showAttachMenu (select_file f read st) = false /\
  handleFileSelect None st = (st, []).
Proof.
  unfold select_file. rewrite handleFileSelect_cases. cbv zeta.
  rewrite (N.leb_antisym MAX_FILE_SIZE (file_size f)).
  destruct (MAX_FILE_SIZE <? file_size f)%N; cbn [negb andb];
    [now repeat split|].
  destruct (allowed_type f); [|now repeat split].
  destruct read; now repeat split.
Qed.

(** A video of exactly 2 MiB is still accepted. *)
Example two_MiB_video_is_staged :
  mp_type <$>
    mediaPreview
      (select_file
         {| file_size := 2097152; file_type := js "video/mp4";
            file_name := js "clip.mp4" |}
         (Some (js "data:video/mp4;base64,AAAA")) Sample.openA)
  = Some (js "video/mp4").
Proof. vm_compute. reflexivity. Qed.

End Staging.

(** Amy starts typing in the open conversation A: she is in the typing
    set, a second start event adds nothing, and her stop event takes her
    out. *)
Lemma typing_membership_witness :
  (js "u-amy" ∈
     ChatPage.typingUsers
       (ChatPage.onTyping_handler (js "u-me")
          {| ChatPage.ev_conversationId := js "A";
             ChatPage.ev_userId := js "u-amy" |} Sample.openA)) /\
  (js "u-amy" ∉
     ChatPage.typingUsers
       (ChatPage.onStopTyping_handler
          {| ChatPage.ev_conversationId := js "A";
             ChatPage.ev_userId := js "u-amy" |} Sample.openA)).
Proof.
  destruct (typing_membership (js "u-me")
              {| ChatPage.ev_conversationId := js "A";
                 ChatPage.ev_userId := js "u-amy" |} Sample.openA)
    as (H1 & H2 & _).
  - reflexivity.
  - discriminate.
  - split; [exact H1 | exact H2].
Defined.

(** ** A load that fails *)

Section FailedLoad.
Import ChatPage.

Variable toDateString : Z -> jsstring.

(** When the load of a newly opened conversation fails, the spinner goes
    away and the messages held before are rendered again, all of them and
    in their order, although another conversation is the active one now:
    the failure is only logged, the timeline is not emptied. *)
Theorem failed_load_keeps_old_timeline (convId reason : jsstring)
    (st : ChatState) :
  activeConvId
    (loadMessages_settled convId (Rejected reason)
       (fst (select_conversation convId st)))
  = Some convId /\
  loadingMsgs
    (loadMessages_settled convId (Rejected reason)
       (fst (select_conversation convId st)))
  = false /\
  rendered_timeline toDateString
    (loadMessages_settled convId (Rejected reason)
       (fst (select_conversation convId st)))
  = messages st.
Proof.
  rewrite rendered_is_messages.
  unfold select_conversation, activeConvId_effect, loadMessages.
  cbn [activeConvId handleSelectConversation setReplyingTo setTypingUsers
       setShowMobileChat setActiveConvId].
  case_bool_decide; [|destruct (truthy convId)]; now repeat split.
Qed.

End FailedLoad.
